(** * my_batcher: the parameter expander of the task-creation form

    A shallow embedding of the task-creation component held in
    [frontend/src/api.ts] ([parseValues], [cartesianProduct],
    [generateParams], [handleSubmit], after the request helpers of the
    same file) together with the fragments of the JavaScript runtime
    these functions rely on: strings as sequences of UTF-16 code units,
    Numbers as IEEE 754 binary64 values, [parseInt], [parseFloat].

    The scheduler of the backend ([service/scheduler.py]) is not among
    the sources; its admission rule is modelled from the specification
    in [Module Scheduler]. *)

From Stdlib Require Import ZArith NArith List Bool Lia String Ascii.
From Stdlib Require Import SpecFloat.
Import ListNotations.

(** ** JavaScript strings and numbers *)

Module JS.

(** A JavaScript string is a sequence of UTF-16 code units. *)
Definition char := N.
Definition jsstring := list char.

(** [str "1-5"] is the JavaScript string literal ["1-5"]. *)
Definition str (s : string) : jsstring := map N_of_ascii (list_ascii_of_string s).

(** The code units the component searches for: [","], ["-"], [":"]. *)
Definition comma : char := 44%N.
Definition hyphen : char := 45%N.
Definition colon : char := 58%N.

(** WhiteSpace and LineTerminator code points, the set removed by
    [String.prototype.trim] and skipped by [parseInt] and [parseFloat]. *)
Definition isWhiteSpace (c : char) : bool :=
  (existsb (N.eqb c)
     [9; 10; 11; 12; 13; 32; 160; 5760; 8232; 8233; 8239; 8287; 12288; 65279]
   || ((8192 <=? c) && (c <=? 8202)))%N.

Fixpoint trimStart (s : jsstring) : jsstring :=
  match s with
  | [] => []
  | c :: r => if isWhiteSpace c then trimStart r else s
  end.

Definition trimEnd (s : jsstring) : jsstring := rev (trimStart (rev s)).

(** [s.trim()] *)
Definition trim (s : jsstring) : jsstring := trimEnd (trimStart s).

(** [s.split(sep)] for a separator of one code unit: the pieces between
    the occurrences of [sep]; never the empty array. *)
Fixpoint split (sep : char) (s : jsstring) : list jsstring :=
  match s with
  | [] => [[]]
  | c :: r =>
      if (c =? sep)%N then [] :: split sep r
      else match split sep r with
           | p :: ps => (c :: p) :: ps
           | [] => [[c]]
           end
  end.

(** [s.includes(c)] for a search string of one code unit. *)
Definition includes (s : jsstring) (c : char) : bool := existsb (N.eqb c) s.

(** *** Numbers: IEEE 754 binary64 *)

Definition number := spec_float.

Definition prec : Z := 53.
Definition emax : Z := 1024.

Definition NaN : number := S754_nan.

Definition isNaN (x : number) : bool :=
  match x with S754_nan => true | _ => false end.

(** The Number value of a mathematical integer (rounded to nearest, ties
    to even). *)
Definition of_Z (z : Z) : number := binary_normalize prec emax z 0 false.

(** [x + y], [x <= y], [x > y] on Numbers. *)
Definition add (x y : number) : number := SFadd prec emax x y.
Definition leb (x y : number) : bool := SFleb x y.
Definition gtb (x y : number) : bool := SFltb y x.

(** The Number value of the decimal [m * 10^x] for [0 <= m], negated when
    [neg]: one rounding of the exact value. *)
Definition of_decimal (neg : bool) (m x : Z) : number :=
  if (m =? 0)%Z then S754_zero neg
  else if (0 <=? x)%Z then
    binary_normalize prec emax (cond_Zopp neg (m * 10 ^ x)) 0 false
  else
    let '(q, e, l) := SFdiv_core_binary prec emax m 0 (10 ^ (- x)) 0 in
    binary_round_aux prec emax neg q e l.

(** *** Digits *)

(** The value of a code unit as a digit: [0-9], [a-z], [A-Z]. *)
Definition digitValue (c : char) : option Z :=
  if ((48 <=? c) && (c <=? 57))%N then Some (Z.of_N c - 48)%Z
  else if ((97 <=? c) && (c <=? 122))%N then Some (Z.of_N c - 87)%Z
  else if ((65 <=? c) && (c <=? 90))%N then Some (Z.of_N c - 55)%Z
  else None.

Definition isRadixDigit (R : Z) (c : char) : bool :=
  match digitValue c with
  | Some d => (d <? R)%Z
  | None => false
  end.

Definition isDecimalDigit (c : char) : bool := ((48 <=? c) && (c <=? 57))%N.

(** The longest prefix of [s] whose code units satisfy [p], and the rest. *)
Fixpoint span (p : char -> bool) (s : jsstring) : jsstring * jsstring :=
  match s with
  | [] => ([], [])
  | c :: r =>
      if p c then let '(a, b) := span p r in (c :: a, b) else ([], s)
  end.

(** The mathematical integer written by the digits [ds] in radix [R]. *)
Definition digitsValue (R : Z) (ds : jsstring) : Z :=
  fold_left
    (fun acc c => match digitValue c with
                  | Some d => acc * R + d
                  | None => acc
                  end)%Z
    ds 0%Z.

(** *** parseInt(string) with no radix argument *)

(** Sign, and the string after it. *)
Definition stripSign (s : jsstring) : bool * jsstring :=
  match s with
  | c :: r =>
      if (c =? 45)%N then (true, r)
      else if (c =? 43)%N then (false, r)
      else (false, s)
  | [] => (false, s)
  end.

(** Radix, and the string after the [0x]/[0X] prefix. *)
Definition stripPrefix (s : jsstring) : Z * jsstring :=
  match s with
  | c :: x :: r =>
      if ((c =? 48) && ((x =? 120) || (x =? 88)))%N then (16%Z, r) else (10%Z, s)
  | _ => (10%Z, s)
  end.

(** The signed mathematical integer [parseInt] reads, [None] when there
    is no digit to read (the case that returns NaN); the flag is the sign
    read, which decides between [+0] and [-0]. *)
Definition parseInt_Z (s : jsstring) : option (bool * Z) :=
  let '(neg, s1) := stripSign (trimStart s) in
  let '(R, s2) := stripPrefix s1 in
  let '(ds, _) := span (isRadixDigit R) s2 in
  match ds with
  | [] => None
  | _ => Some (neg, digitsValue R ds)
  end.

Definition parseInt (s : jsstring) : number :=
  match parseInt_Z s with
  | None => NaN
  | Some (neg, mathInt) =>
      if (mathInt =? 0)%Z then S754_zero neg
      else of_Z (cond_Zopp neg mathInt)
  end.

(** [parseInt(undefined)]: the argument is first converted to the string
    ["undefined"]. *)
Definition undefined_string : jsstring := str "undefined".

Definition parseInt_arg (s : option jsstring) : number :=
  parseInt (match s with Some s => s | None => undefined_string end).

(** *** parseFloat(string) *)

Definition startsWith (pre s : jsstring) : bool :=
  (List.length pre <=? List.length s)%nat &&
  forallb (fun p => (fst p =? snd p)%N) (combine pre s).

(** The exponent part [e] / [E], optional sign, at least one digit; [0]
    when the text at [s] is not a complete exponent part. *)
Definition exponentPart (s : jsstring) : Z :=
  match s with
  | c :: r =>
      if ((c =? 101) || (c =? 69))%N then
        let '(eneg, r1) := stripSign r in
        let '(ds, _) := span isDecimalDigit r1 in
        match ds with
        | [] => 0%Z
        | _ => cond_Zopp eneg (digitsValue 10 ds)
        end
      else 0%Z
  | [] => 0%Z
  end.

(** The value of the longest prefix of [s] that is an unsigned
    StrDecimalLiteral, as mantissa and decimal exponent; [None] when no
    prefix is one; [Some None] stands for [Infinity]. *)
Definition unsignedDecimal (s : jsstring) : option (option (Z * Z)) :=
  if startsWith (str "Infinity") s then Some None
  else
    let '(ip, r1) := span isDecimalDigit s in
    let plain :=
      match ip with
      | [] => None
      | _ => Some (Some (digitsValue 10 ip, exponentPart r1))
      end in
    match r1 with
    | c :: r2 =>
        if (c =? 46)%N then
          let '(fp, r3) := span isDecimalDigit r2 in
          match ip, fp with
          | [], [] => None
          | _, _ =>
              Some (Some (digitsValue 10 (ip ++ fp),
                          exponentPart r3 - Z.of_nat (List.length fp)))%Z
          end
        else plain
    | [] => plain
    end.

Definition parseFloat (s : jsstring) : number :=
  let '(neg, s1) := stripSign (trimStart s) in
  match unsignedDecimal s1 with
  | None => NaN
  | Some None => S754_infinity neg
  | Some (Some (m, x)) => of_decimal neg m x
  end.

End JS.

(** ** The task-creation component *)

Module CreateTask.
Import JS.

(** *** Outcomes

    A call either returns, or is still running when the fuel the model
    follows it with is spent, or throws a TypeError (a property read on
    [undefined]), or throws a RangeError ([push] on an array that cannot
    grow). *)
Inductive outcome (A : Type) : Type :=
  | Done (a : A)
  | OutOfFuel
  | TypeError
  | RangeError.
Arguments Done {A} a.
Arguments OutOfFuel {A}.
Arguments TypeError {A}.
Arguments RangeError {A}.

Definition bind {A B : Type} (r : outcome A) (k : A -> outcome B) : outcome B :=
  match r with
  | Done a => k a
  | OutOfFuel => OutOfFuel
  | TypeError => TypeError
  | RangeError => RangeError
  end.

Notation "x <- r ;; k" := (bind r (fun x => k))
  (at level 61, r at next level, right associativity).

(** *** Arrays

    The length of an array is an unsigned 32-bit integer, so that an
    array holds at most 2^32 - 1 elements; an engine may refuse to grow
    one earlier.  [capacity] is the number of elements the engine that
    runs the page lets an array reach. *)
Definition maxArrayLength : N := 4294967295.

Definition arrayRoom (capacity : N) : N := N.min capacity maxArrayLength.

Definition canPush {T : Type} (capacity : N) (xs : list T) : bool :=
  (N.of_nat (List.length xs) <? arrayRoom capacity)%N.

(** [xs.push(x)]: throws when the array cannot grow. *)
Definition push {T : Type} (capacity : N) (xs : list T) (x : T)
  : outcome (list T) :=
  if canPush capacity xs then Done (xs ++ [x]) else RangeError.

(** *** parseValues (api.ts, lines 159-187) *)

(** [for (let i = start; i <= end; i += step) result.push(i)].  The
    condition of the loop need not become false: [fuel] bounds the
    iterations the model follows, and the loop is left by the exception
    of [push] when [result] is full. *)
Fixpoint range_loop (capacity : N) (fuel : nat) (i end_ step : number)
    (result : list number) : outcome (list number) :=
  match fuel with
  | O => OutOfFuel
  | S fuel' =>
      if leb i end_
      then
        result' <- push capacity result i ;;
        range_loop capacity fuel' (add i step) end_ step result'
      else Done result
  end.

(** [stepStr ? parseInt(stepStr) : 1]: [undefined] and the empty string
    are falsy. *)
Definition parseStep (stepStr : option jsstring) : number :=
  match stepStr with
  | None | Some [] => of_Z 1
  | Some s => parseInt s
  end.

(** The three numbers a range segment is read as:
    [const [range, stepStr] = part.split(":")],
    [const [startStr, endStr] = range.split("-")]. *)
Definition parseRange (part : jsstring) : number * number * number :=
  let pieces := split colon part in
  let range := hd [] pieces in
  let stepStr := nth_error pieces 1 in
  let bounds := split hyphen range in
  let startStr := nth_error bounds 0 in
  let endStr := nth_error bounds 1 in
  (parseInt_arg startStr, parseInt_arg endStr, parseStep stepStr).

(** The guard of the range loop. *)
Definition validRange (start end_ step : number) : bool :=
  negb (isNaN start) && negb (isNaN end_) && negb (isNaN step)
  && gtb step (of_Z 0).

(** One iteration of [for (const part of parts)]. *)
Definition parsePart (capacity : N) (fuel : nat) (part : jsstring)
    (result : list number) : outcome (list number) :=
  if includes part hyphen then
    let '(start, end_, step) := parseRange part in
    if validRange start end_ step
    then range_loop capacity fuel start end_ step result
    else Done result
  else
    let val := parseFloat part in
    if negb (isNaN val) then push capacity result val else Done result.

Fixpoint parseParts (capacity : N) (fuel : nat) (parts : list jsstring)
    (result : list number) : outcome (list number) :=
  match parts with
  | [] => Done result
  | part :: rest =>
      r <- parsePart capacity fuel part result ;;
      parseParts capacity fuel rest r
  end.

Definition parseValues (capacity : N) (fuel : nat) (input : jsstring)
  : outcome (list number) :=
  let parts := map trim (split comma input) in
  parseParts capacity fuel parts [].

(** *** cartesianProduct (api.ts, lines 193-200) *)

(** [arrays.reduce((acc, arr) => acc.flatMap(x => arr.map(y => [...x, y])), [[]])],
    after the guard for the empty input. *)
Definition cartesianProduct {T : Type} (arrays : list (list T)) : list (list T) :=
  if (List.length arrays =? 0)%nat then [[]]
  else
    fold_left
      (fun acc arr => flat_map (fun x => map (fun y => x ++ [y]) arr) acc)
      arrays [[]].

(** *** generateParams (api.ts, lines 205-249) *)

(** The component's state that the expansion reads. *)
Record ParamConfig := { enabled : bool; values : jsstring }.

Record state := {
  name : jsstring;
  nodeId : jsstring;
  seedConfig : ParamConfig;
  stepsConfig : ParamConfig;
  cfgConfig : ParamConfig
}.

(** An element of [paramArrays]: [{ field, values }]. *)
Record paramArray := { pa_field : jsstring; pa_values : list number }.

(** An override triple [{ node_id, field, value }]. *)
Record param := { node_id : jsstring; field : jsstring; value : number }.

(** One of the three blocks
    [if (c.enabled) { const values = parseValues(c.values);
                      if (values.length > 0) paramArrays.push({ field, values }) }].
    [paramArrays] holds three elements at most, and so does each
    [params]: their pushes are followed without the limit. *)
Definition pushParam (capacity : N) (fuel : nat) (fieldName : jsstring)
    (config : ParamConfig) (paramArrays : list paramArray)
  : outcome (list paramArray) :=
  if enabled config then
    vs <- parseValues capacity fuel (values config) ;;
    if (0 <? List.length vs)%nat
    then Done (paramArrays ++ [{| pa_field := fieldName; pa_values := vs |}])
    else Done paramArrays
  else Done paramArrays.

Definition collectParamArrays (capacity : N) (fuel : nat) (st : state)
  : outcome (list paramArray) :=
  pa1 <- pushParam capacity fuel (str "seed") (seedConfig st) [] ;;
  pa2 <- pushParam capacity fuel (str "steps") (stepsConfig st) pa1 ;;
  pushParam capacity fuel (str "cfg") (cfgConfig st) pa2.

(** [combo.forEach((value, index) => params.push({ node_id: nodeId,
    field: paramArrays[index].field, value }))]; reading [.field] of an
    index outside [paramArrays] throws. *)
Fixpoint forEachValue (nodeId : jsstring) (paramArrays : list paramArray)
    (combo : list number) (index : nat) (params : list param)
  : outcome (list param) :=
  match combo with
  | [] => Done params
  | v :: rest =>
      match nth_error paramArrays index with
      | None => TypeError
      | Some p =>
          forEachValue nodeId paramArrays rest (S index)
            (params ++ [{| node_id := nodeId; field := pa_field p; value := v |}])
      end
  end.

(** [xs.map(f)] for a callback that may not return. *)
Fixpoint mapOutcome {A B : Type} (f : A -> outcome B) (xs : list A)
  : outcome (list B) :=
  match xs with
  | [] => Done []
  | x :: rest =>
      y <- f x ;;
      ys <- mapOutcome f rest ;;
      Done (y :: ys)
  end.

Definition generateParams (capacity : N) (fuel : nat) (st : state)
  : outcome (list (list param)) :=
  paramArrays <- collectParamArrays capacity fuel st ;;
  if (List.length paramArrays =? 0)%nat then Done []
  else
    let valueArrays := map pa_values paramArrays in
    let combinations := cartesianProduct valueArrays in
    mapOutcome (fun combo => forEachValue (nodeId st) paramArrays combo 0 [])
      combinations.

(** *** getWorkflow and handleSubmit (api.ts, lines 257-334) *)

(** The job-description document returned by [app.graphToPrompt()], kept
    opaque but for its keys. *)
Record workflow := { workflow_keys : list jsstring }.

(** [window.comfyApp]. [graphToPrompt] resolves to a prompt whose
    [output] may be missing, or rejects. *)
Inductive promptOutcome :=
  | PromptRejects
  | PromptResolves (output : option workflow).

Record ComfyApp := { graph : bool; graphToPrompt : promptOutcome }.

(** The argument of [createTask] and the response of the server; the
    request helper of [api.ts] turns a failed fetch into
    [{ success: false, error }], so [createTask] always resolves. *)
Record CreateTaskParams := {
  ct_name : jsstring;
  ct_workflow : workflow;
  ct_params : list (list param)
}.

Record ApiResponse := { success : bool; error : option jsstring }.

Record environment := {
  comfyApp : option ComfyApp;
  server : CreateTaskParams -> ApiResponse
}.

(** The texts shown to the user. *)
Inductive message :=
  | NameRequired          (* the task name is missing *)
  | NoValidParams         (* enable a parameter and give it valid values *)
  | NoWorkflow            (* the current workflow could not be read *)
  | ServerError (text : jsstring)
  | CreateFailed.

Inductive alertText :=
  | CannotAccessComfyUI
  | LoadWorkflowFirst
  | WorkflowEmpty
  | GetWorkflowFailed
  | TaskCreated (count : nat).

(** What a run of [handleSubmit] does, in order. *)
Inductive event :=
  | PreventDefault
  | SetError (msg : option message)
  | SetSubmitting (b : bool)
  | Alert (text : alertText)
  | ConsoleLog (paramsList : list (list param))
  | CreateTaskCall (req : CreateTaskParams)
  | SetName (s : jsstring)
  | OnSuccess.

Definition getWorkflow (env : environment) : list event * option workflow :=
  match comfyApp env with
  | None => ([Alert CannotAccessComfyUI], None)
  | Some app =>
      if negb (graph app) then ([Alert LoadWorkflowFirst], None)
      else
        match graphToPrompt app with
        | PromptRejects => ([Alert GetWorkflowFailed], None)
        | PromptResolves None => ([Alert WorkflowEmpty], None)
        | PromptResolves (Some w) =>
            if (List.length (workflow_keys w) =? 0)%nat
            then ([Alert WorkflowEmpty], None)
            else ([], Some w)
        end
  end.

Definition handleSubmit (capacity : N) (fuel : nat) (st : state)
    (env : environment) : outcome (list event) :=
  match trim (name st) with
  | [] => Done [PreventDefault; SetError (Some NameRequired)]
  | _ =>
      paramsList <- generateParams capacity fuel st ;;
      if (List.length paramsList =? 0)%nat
      then Done [PreventDefault; SetError (Some NoValidParams)]
      else
        let '(alerts, w) := getWorkflow env in
        let body :=
          match w with
          | None => [SetError (Some NoWorkflow); SetSubmitting false]
          | Some w =>
              if (List.length (workflow_keys w) =? 0)%nat
              then [SetError (Some NoWorkflow); SetSubmitting false]
              else
                let req := {| ct_name := trim (name st);
                              ct_workflow := w;
                              ct_params := paramsList |} in
                let res := server env req in
                [ConsoleLog paramsList; CreateTaskCall req] ++
                (if success res
                 then [Alert (TaskCreated (List.length paramsList));
                       SetName []; OnSuccess]
                 else [SetError (Some match error res with
                                      | Some (c :: t) => ServerError (c :: t)
                                      | _ => CreateFailed
                                      end)])
          end in
        Done ([PreventDefault; SetSubmitting true; SetError None]
              ++ alerts ++ body ++ [SetSubmitting false])
  end.

End CreateTask.

(** ** The scheduler's admission rule *)

Module Scheduler.

Inductive status := pending | running | completed | failed.

Record Task := {
  id : nat;
  task_status : status;
  total_count : nat;
  completed_count : nat
}.

(** The single worker: polling, holding a claimed task between two
    combinations, or blocked on the one submission it made. *)
Inductive worker :=
  | Idle
  | Between (task : nat) (next : nat)
  | Blocked (task : nat) (index : nat) (handle : nat).

Record system := {
  store : list Task;
  next_id : nat;
  the_worker : worker;
  outstanding : list nat;     (* handles the engine has not yet settled *)
  next_handle : nat
}.

Definition initial : system :=
  {| store := []; next_id := 0; the_worker := Idle;
     outstanding := []; next_handle := 0 |}.

Inductive action :=
  | CreateTask (combinations : nat)
  | DeleteTask (task : nat)
  | RunTask (task : nat)
  | Poll
  | Submit
  | Succeeded (handle : nat)
  | Failed (handle : nat)
  | Finish.

Definition is_pending (t : Task) : bool :=
  match task_status t with pending => true | _ => false end.

Definition update (task : nat) (f : Task -> Task) (ts : list Task) : list Task :=
  map (fun t => if (id t =? task)%nat then f t else t) ts.

Definition set_status (s : status) (t : Task) : Task :=
  {| id := id t; task_status := s;
     total_count := total_count t; completed_count := completed_count t |}.

Definition record_progress (t : Task) : Task :=
  {| id := id t; task_status := task_status t;
     total_count := total_count t; completed_count := S (completed_count t) |}.

Definition total_of (task : nat) (ts : list Task) : option nat :=
  option_map total_count (find (fun t => (id t =? task)%nat) ts).

Definition with_store (sys : system) (ts : list Task) : system :=
  {| store := ts; next_id := next_id sys; the_worker := the_worker sys;
     outstanding := outstanding sys; next_handle := next_handle sys |}.

(** Modelled from the spec: the scheduler loop of [service/scheduler.py]
    and the task store it polls are not among the sources.  This is the
    worker of section 4.3: each cycle claims the oldest pending task or
    idles; a claimed task's combinations are taken in order; each one is
    submitted to the engine and the worker blocks until that submission
    succeeds (progress is recorded, the next combination follows) or
    fails (the task becomes [failed], the rest is abandoned); after the
    last combination the task becomes [completed].  Tasks are created
    (only with at least one combination), deleted at any status and
    re-queued by the API layer at any time; progress and finish on a
    deleted id do nothing.  [None]: the action is not enabled in [sys]. *)
Definition step (a : action) (sys : system) : option system :=
  match a, the_worker sys with
  | CreateTask n, _ =>
      if (n =? 0)%nat then None
      else Some {| store := store sys ++
                     [{| id := next_id sys; task_status := pending;
                         total_count := n; completed_count := 0 |}];
                   next_id := S (next_id sys);
                   the_worker := the_worker sys;
                   outstanding := outstanding sys;
                   next_handle := next_handle sys |}
  | DeleteTask task, _ =>
      Some (with_store sys
              (filter (fun t => negb (id t =? task)%nat) (store sys)))
  | RunTask task, _ =>
      Some (with_store sys
              (update task
                 (fun t => match task_status t with
                           | running => t
                           | _ => set_status pending t
                           end)
                 (store sys)))
  | Poll, Idle =>
      match find is_pending (store sys) with
      | None => Some sys
      | Some t =>
          Some {| store := update (id t) (set_status running) (store sys);
                  next_id := next_id sys;
                  the_worker := Between (id t) 0;
                  outstanding := outstanding sys;
                  next_handle := next_handle sys |}
      end
  | Submit, Between task k =>
      match total_of task (store sys) with
      | Some n =>
          if (k <? n)%nat then
            Some {| store := store sys;
                    next_id := next_id sys;
                    the_worker := Blocked task k (next_handle sys);
                    outstanding := next_handle sys :: outstanding sys;
                    next_handle := S (next_handle sys) |}
          else None
      | None => None
      end
  | Succeeded h, Blocked task k h' =>
      if (h =? h')%nat then
        Some {| store := update task record_progress (store sys);
                next_id := next_id sys;
                the_worker := Between task (S k);
                outstanding := filter (fun x => negb (x =? h)%nat) (outstanding sys);
                next_handle := next_handle sys |}
      else None
  | Failed h, Blocked task k h' =>
      if (h =? h')%nat then
        Some {| store := update task (set_status failed) (store sys);
                next_id := next_id sys;
                the_worker := Idle;
                outstanding := filter (fun x => negb (x =? h)%nat) (outstanding sys);
                next_handle := next_handle sys |}
      else None
  | Finish, Between task k =>
      match total_of task (store sys) with
      | Some n =>
          if (k <? n)%nat then None
          else Some {| store := update task (set_status completed) (store sys);
                       next_id := next_id sys;
                       the_worker := Idle;
                       outstanding := outstanding sys;
                       next_handle := next_handle sys |}
      | None =>
          (* the task was deleted while it ran: the worker lets go of it *)
          Some {| store := store sys;
                  next_id := next_id sys;
                  the_worker := Idle;
                  outstanding := outstanding sys;
                  next_handle := next_handle sys |}
      end
  | _, _ => None
  end.

(** The system after a sequence of actions, each enabled in its turn. *)
Fixpoint run (acts : list action) (sys : system) : option system :=
  match acts with
  | [] => Some sys
  | a :: rest =>
      match step a sys with
      | Some sys' => run rest sys'
      | None => None
      end
  end.

(** The engine holds the submission the worker is blocked on, and no
    other. *)
Definition admission (sys : system) : Prop :=
  outstanding sys = match the_worker sys with
                    | Blocked _ _ h => [h]
                    | _ => []
                    end.

End Scheduler.

(** ** Notions the statements are written with *)

Module Props.
Import JS CreateTask.

(** A call that returns [a], given enough fuel, on every engine whose
    arrays hold [room] elements. *)
Definition returns {A : Type} (room : N) (run : N -> nat -> outcome A) (a : A)
  : Prop :=
  forall capacity, (room <= capacity)%N -> exists fuel, run capacity fuel = Done a.

(** A call that does not return, however long it is followed. *)
Definition neverReturns {A : Type} (run : nat -> outcome A) : Prop :=
  forall fuel a, run fuel <> Done a.

(** A call that throws a RangeError. *)
Definition throwsRangeError {A : Type} (run : nat -> outcome A) : Prop :=
  exists fuel, run fuel = RangeError.

(** The product in which the first list varies slowest and every list is
    walked in its own order. *)
Fixpoint lexProduct {T : Type} (arrays : list (list T)) : list (list T) :=
  match arrays with
  | [] => [[]]
  | xs :: rest => flat_map (fun x => map (cons x) (lexProduct rest)) xs
  end.

(** The callback of the reduction in [cartesianProduct]. *)
Definition extend {T : Type} (acc : list (list T)) (arr : list T) : list (list T) :=
  flat_map (fun x => map (fun y => x ++ [y]) arr) acc.


(** What a dimension contributes: its parsed values when it is enabled,
    nothing when it is not. *)
Definition contribution (capacity : N) (fuel : nat) (c : ParamConfig)
  : outcome (list number) :=
  if enabled c then parseValues capacity fuel (values c) else Done [].

(** The participating dimensions, in declaration order: those that
    contribute at least one value. *)
Definition participating (v_seed v_steps v_cfg : list number) : list paramArray :=
  filter (fun p => negb (List.length (pa_values p) =? 0)%nat)
    [ {| pa_field := str "seed"; pa_values := v_seed |};
      {| pa_field := str "steps"; pa_values := v_steps |};
      {| pa_field := str "cfg"; pa_values := v_cfg |} ].

(** The override set of one element of the product: one triple per
    participating dimension, all with the same target. *)
Definition overrides (target : jsstring) (dims : list paramArray)
    (combo : list number) : list param :=
  map (fun dv => {| node_id := target; field := pa_field (fst dv); value := snd dv |})
      (combine dims combo).


(** A dimension switched off, its specification kept. *)
Definition disable (c : ParamConfig) : ParamConfig :=
  {| enabled := false; values := values c |}.

Definition with_configs (st : state) (seed steps cfg : ParamConfig) : state :=
  {| name := name st; nodeId := nodeId st;
     seedConfig := seed; stepsConfig := steps; cfgConfig := cfg |}.


(** The form with only [seed] enabled, set to ["abc"]. *)
Definition no_valid_seed : state :=
  {| name := str "batch"; nodeId := str "3";
     seedConfig := {| enabled := true; values := str "abc" |};
     stepsConfig := {| enabled := false; values := str "20,30,40" |};
     cfgConfig := {| enabled := false; values := str "7,8,9" |} |}.

(** A page on which ComfyUI is loaded with a two-node workflow, and a
    server that accepts every task. *)
Definition ready_page : environment :=
  {| comfyApp := Some {| graph := true;
                         graphToPrompt :=
                           PromptResolves
                             (Some {| workflow_keys := [str "3"; str "4"] |}) |};
     server := fun _ => {| success := true; error := None |} |}.

(** The form with [seed="1-2"] and [steps="10,20"] enabled. *)
Definition seed_steps (task target cfg_values : jsstring) : state :=
  {| name := task; nodeId := target;
     seedConfig := {| enabled := true; values := str "1-2" |};
     stepsConfig := {| enabled := true; values := str "10,20" |};
     cfgConfig := {| enabled := false; values := cfg_values |} |}.


(** The segments of a specification put back together with commas. *)
Fixpoint join (segs : list jsstring) : jsstring :=
  match segs with
  | [] => []
  | [s] => s
  | s :: rest => s ++ comma :: join rest
  end.

(** Parsing a specification given as its list of segments. *)
Definition parseSegments (capacity : N) (fuel : nat) (segs : list jsstring)
  : outcome (list number) :=
  parseParts capacity fuel (map trim segs) [].

(** The array [result] can take the values [vs] as well. *)
Definition hasRoom {T U : Type} (capacity : N) (result : list T) (vs : list U)
  : bool :=
  (N.of_nat (List.length result + List.length vs) <=? arrayRoom capacity)%N.

(** *** Range segments as texts *)







(** 15/2 *)
Definition seven_and_a_half : number := binary_normalize prec emax 15 (-1) false.

(** [0 <= x] *)
Definition nonneg (x : number) : Prop := leb (of_Z 0) x = true.

(** A number that is not negative and not NaN: [+0], [-0], a positive
    finite number or [+Infinity]. *)
Definition positive_or_zero (x : number) : Prop :=
  match x with
  | S754_zero _ => True
  | S754_infinity s | S754_finite s _ _ => s = false
  | S754_nan => False
  end.

(** The same, NaN allowed. *)
Definition positive_or_nan (x : number) : Prop :=
  match x with
  | S754_nan => True
  | _ => positive_or_zero x
  end.

(** A number that is at least 2^53: a mantissa of 53 digits or more
    scaled up, or [+Infinity]. *)
Definition beyond_safe (x : number) : Prop :=
  match x with
  | S754_infinity false => True
  | S754_finite false m e => (1 <= e /\ 53 <= Z.pos (digits2_pos m))%Z
  | _ => False
  end.

(** The Number of an integer below 2^53, however it is aligned. *)
Definition canonical (N : Z) : number :=
  S754_finite false (Z.to_pos (N * 2 ^ (53 - Zdigits2 N))%Z) (Zdigits2 N - 53)%Z.

(** A literal with a leading numeric prefix: after white space and an
    optional sign, a digit, or a point and a digit, or [Infinity]. *)
Definition numericPrefix (s : jsstring) : bool :=
  let '(_, s1) := stripSign (trimStart s) in
  startsWith (str "Infinity") s1 ||
  match s1 with
  | c :: r =>
      isDecimalDigit c ||
      ((c =? 46)%N && match r with d :: _ => isDecimalDigit d | [] => false end)
  | [] => false
  end.

End Props.

(** ** Range segments and numerals *)

Module Ranges.
Import JS CreateTask Props.

(** A decimal numeral: one or more of the digits [0-9]. *)
Definition isNumeral (ds : jsstring) : bool :=
  negb (List.length ds =? 0)%nat && forallb isDecimalDigit ds.

(** The text of a range segment, [A-B] or [A-B:S]. *)
Definition rangeText (A B : jsstring) (stepText : option jsstring) : jsstring :=
  A ++ hyphen :: B ++ match stepText with Some t => colon :: t | None => [] end.

(** [a, a+s, a+2s, ...] up to and including the last term not above [b]. *)
Definition progression (a b s : Z) : list Z :=
  if (a <=? b)%Z
  then map (fun k => a + Z.of_nat k * s)%Z (seq 0 (Z.to_nat ((b - a) / s + 1)))
  else [].

(** The step a range segment asks for: the numeral after the colon, or 1
    when there is no colon or nothing after it. *)
Definition stepValue (stepText : option jsstring) : Z :=
  match stepText with
  | Some (c :: t) => digitsValue 10 (c :: t)
  | _ => 1%Z
  end.

Definition validStep (stepText : option jsstring) : bool :=
  match stepText with
  | Some (c :: t) => isNumeral (c :: t) && (1 <=? digitsValue 10 (c :: t))%Z
  | _ => true
  end.

(** A text without white space. *)
Definition spaceless (s : jsstring) : bool :=
  forallb (fun c => negb (isWhiteSpace c)) s.

(** A text of white space only. *)
Definition blank (s : jsstring) : bool := forallb isWhiteSpace s.

End Ranges.

(** ** What the form shows *)

Module Form.
Import JS CreateTask Props.

(** [taskCount]: [generateParams().length] (api.ts, lines 252-254). *)
Definition taskCount (capacity : N) (fuel : nat) (st : state) : outcome nat :=
  paramsList <- generateParams capacity fuel st ;;
  Done (List.length paramsList).

(** The submit button: [disabled={submitting || taskCount === 0}]. *)
Definition submitDisabled (submitting : bool) (count : nat) : bool :=
  submitting || (count =? 0)%nat.

(** The requests [handleSubmit] sent to [createTask], in order. *)
Fixpoint createCalls (events : list event) : list CreateTaskParams :=
  match events with
  | [] => []
  | CreateTaskCall req :: rest => req :: createCalls rest
  | _ :: rest => createCalls rest
  end.

(** An alert raised by [getWorkflow]. *)
Definition workflowAlert (e : event) : bool :=
  match e with
  | Alert (TaskCreated _) => false
  | Alert _ => true
  | _ => false
  end.

End Form.

(** ** The task list (api.ts, lines 509-670) *)

Module TaskList.
Import JS.

(** [Task] of api.ts. *)
Record Task := {
  id : number;
  task_name : jsstring;
  status : jsstring;
  created_at : jsstring;
  updated_at : jsstring;
  total_count : number;
  completed_count : number
}.

(** [ApiResponse<Task[]>]: every field but [success] may be missing. *)
Record TasksResponse := {
  success : bool;
  data : option (list Task);
  error : option jsstring
}.

(** The state of the component: [tasks], [loading], [error]. *)
Record listState := {
  tasks : list Task;
  loading : bool;
  shown_error : option jsstring
}.

(** The state at mount: [useState([])], [useState(true)], [useState(null)]. *)
Definition mounted : listState :=
  {| tasks := []; loading := true; shown_error := None |}.

(** The default text of [loadTasks], four code units. *)
Definition loadFailedText : jsstring := [21152; 36733; 22833; 36133]%N.

(** [result.error || text]: a missing or empty error gives way to the
    default. *)
Definition orDefault (e : option jsstring) (text : jsstring) : jsstring :=
  match e with
  | Some (c :: t) => c :: t
  | _ => text
  end.

(** [loadTasks] up to its [await]: [setLoading(true); setError(null)]. *)
Definition loadTasks_begin (st : listState) : listState :=
  {| tasks := tasks st; loading := true; shown_error := None |}.

(** [loadTasks] after its [await], given what [getTasks] resolved to. *)
Definition loadTasks_end (st : listState) (result : TasksResponse) : listState :=
  match success result, data result with
  | true, Some d =>
      {| tasks := d; loading := false; shown_error := shown_error st |}
  | _, _ =>
      {| tasks := tasks st; loading := false;
         shown_error := Some (orDefault (error result) loadFailedText) |}
  end.

(** The calls of [loadTasks] (mount, the 5 s timer, the buttons) may
    overlap: each is a begin and, later, an end. *)
Inductive loadEvent :=
  | Begin
  | End_ (result : TasksResponse).

Definition apply (st : listState) (e : loadEvent) : listState :=
  match e with
  | Begin => loadTasks_begin st
  | End_ result => loadTasks_end st result
  end.

(** What the component returns. *)
Inductive screen :=
  | LoadingScreen
  | ErrorScreen (text : jsstring)
  | EmptyScreen
  | ListScreen (shown : list Task).

(** [error && ...]: [null] and the empty string are falsy. *)
Definition truthy (e : option jsstring) : bool :=
  match e with
  | Some (_ :: _) => true
  | _ => false
  end.

Definition render (st : listState) : screen :=
  let empty := (List.length (tasks st) =? 0)%nat in
  if loading st && empty then LoadingScreen
  else if truthy (shown_error st) && empty then
    ErrorScreen (match shown_error st with Some text => text | None => [] end)
  else if empty then EmptyScreen
  else ListScreen (tasks st).

(** A task as the server lists it. *)
Definition sampleTask : Task :=
  {| id := of_Z 1; task_name := str "batch"; status := str "pending";
     created_at := str "2024-01-01 00:00:00";
     updated_at := str "2024-01-01 00:00:00";
     total_count := of_Z 4; completed_count := of_Z 0 |}.

(** A load that did not deliver a list. *)
Definition failedLoad (e : loadEvent) : bool :=
  match e with
  | Begin => true
  | End_ result =>
      match success result, data result with
      | true, Some _ => false
      | _, _ => true
      end
  end.

End TaskList.

(** ** Loading the application into the page (index.tsx, web/setup.js) *)

Module Bootstrap.
Import JS.

(** An element of the page body: its id, and whether a React tree has
    been rendered into it. *)
Record element := { elem_id : jsstring; rendered : bool }.

(** The page: the body's children, the style sheets linked in the head,
    and the [initApp] handlers waiting for [DOMContentLoaded]. *)
Record page := {
  body : list element;
  head : list jsstring;
  listeners : nat
}.

Definition rootId : jsstring := str "mini-batcher-root".

Definition hasId (i : jsstring) (e : element) : bool :=
  if list_eq_dec N.eq_dec (elem_id e) i then true else false.

(** [initApp] of index.tsx.  [mountThrows]: [createRoot] or [render]
    throws, which the [catch] of [initApp] only logs. *)
Definition initApp (mountThrows : bool) (p : page) : page :=
  if existsb (hasId rootId) (body p) then p
  else
    {| body := body p ++ [{| elem_id := rootId; rendered := negb mountThrows |}];
       head := head p;
       listeners := listeners p |}.

(** The last statement of index.tsx, run when the module is evaluated. *)
Definition evaluateIndex (readyStateLoading mountThrows : bool) (p : page) : page :=
  if readyStateLoading
  then {| body := body p; head := head p; listeners := S (listeners p) |}
  else initApp mountThrows p.

(** [DOMContentLoaded] fires: every waiting handler runs. *)
Definition domContentLoaded (mountThrows : bool) (p : page) : page :=
  Nat.iter (listeners p) (initApp mountThrows)
    {| body := body p; head := head p; listeners := 0 |}.

(** What the browser answers to [initMiniBatcher].  [exports_initApp]:
    the module served as [index.js] has a function [initApp] among its
    exports. *)
Record loads := {
  css_loads : bool;
  lib_react_loads : bool;
  index_loads : bool;
  exports_initApp : bool;
  readyStateLoading : bool;
  first_mount_throws : bool;
  second_mount_throws : bool
}.

Definition cssHref : jsstring := str "/mini-batcher/static/css/index.css".

(** The error banner of [initMiniBatcher]: a [div] without id. *)
Definition banner : element := {| elem_id := []; rendered := false |}.

(** [initMiniBatcher] of setup.js, up to its 5 s timer: the style sheet
    link is appended before it loads; a missing [lib-react.js] is
    passed over; [index.js] is imported, which evaluates the module, and
    [if (module && typeof module.initApp === "function") module.initApp()]
    calls its [initApp] once more when the module exports one. *)
Definition initMiniBatcher (b : loads) (p : page) : page :=
  let p1 := {| body := body p; head := head p ++ [cssHref];
               listeners := listeners p |} in
  let failed := {| body := body p1 ++ [banner]; head := head p1;
                   listeners := listeners p1 |} in
  if css_loads b then
    if index_loads b then
      let p2 := evaluateIndex (readyStateLoading b) (first_mount_throws b) p1 in
      if exports_initApp b
      then initApp (second_mount_throws b) p2
      else p2
    else failed
  else failed.

(** The containers of the application in the page. *)
Definition roots (p : page) : list element := filter (hasId rootId) (body p).

End Bootstrap.

(** ** The product of lists *)

Section ProductFacts.
Context {T : Type}.
Implicit Types (arrays : list (list T)) (acc : list (list T)).

Lemma extend_one (L : list (list T)) (p : list T) (xs : list T) :
  flat_map (fun q => map (app q) L) (map (fun y => p ++ [y]) xs)
  = map (app p) (flat_map (fun x => map (cons x) L) xs).
Proof.
  induction xs as [|y xs IH]; simpl; [reflexivity|].
  rewrite IH, map_app, map_map. f_equal.
  apply map_ext. intros l. now rewrite <- app_assoc.
Qed.

Lemma fold_extend arrays : forall acc,
  fold_left Props.extend arrays acc
  = flat_map (fun p => map (app p) (Props.lexProduct arrays)) acc.
Proof.
  induction arrays as [|xs rest IH]; intros acc; simpl.
  - induction acc as [|p acc IHacc]; simpl; [reflexivity|].
    now rewrite app_nil_r, <- IHacc.
  - rewrite IH. unfold Props.extend.
    induction acc as [|p acc IHacc]; simpl; [reflexivity|].
    now rewrite flat_map_app, IHacc, extend_one.
Qed.

Lemma cartesianProduct_lex arrays :
  CreateTask.cartesianProduct arrays = Props.lexProduct arrays.
Proof.
  unfold CreateTask.cartesianProduct.
  destruct arrays as [|xs rest]; [reflexivity|].
  cbn [List.length Nat.eqb].
  change (fold_left Props.extend (xs :: rest) [[]] = Props.lexProduct (xs :: rest)).
  rewrite fold_extend. cbn [flat_map]. rewrite app_nil_r.
  rewrite <- (map_id (Props.lexProduct (xs :: rest))) at 2.
  now apply map_ext.
Qed.



Lemma in_lexProduct arrays : forall c,
  In c (Props.lexProduct arrays) <-> Forall2 (@In T) c arrays.
Proof.
  induction arrays as [|xs rest IH]; intros c; cbn [Props.lexProduct].
  - split.
    + intros [<-|[]]. constructor.
    + intros H. inversion H. now left.
  - rewrite in_flat_map. split.
    + intros (x & Hx & Hc). apply in_map_iff in Hc as (c' & <- & Hc').
      constructor; [assumption | now apply IH].
    + intros H. destruct c as [|x c']; inversion H; subst.
      exists x. split; [assumption|]. apply in_map_iff.
      exists c'. split; [reflexivity | now apply IH].
Qed.



End ProductFacts.

(** ** More room changes no result *)

Section Room.
Import JS CreateTask Props.

Lemma arrayRoom_le capacity : (arrayRoom capacity <= maxArrayLength)%N.
Proof. unfold arrayRoom. lia. Qed.

Lemma arrayRoom_mono capacity capacity' :
  (capacity <= capacity')%N -> (arrayRoom capacity <= arrayRoom capacity')%N.
Proof. unfold arrayRoom. lia. Qed.

Lemma canPush_lt {T : Type} capacity (xs : list T) :
  canPush capacity xs = true
  <-> (N.of_nat (List.length xs) < arrayRoom capacity)%N.
Proof. unfold canPush. apply N.ltb_lt. Qed.

Lemma canPush_ge {T : Type} capacity (xs : list T) :
  canPush capacity xs = false
  <-> (arrayRoom capacity <= N.of_nat (List.length xs))%N.
Proof. unfold canPush. apply N.ltb_ge. Qed.

Lemma push_room {T : Type} capacity capacity' (xs : list T) x r :
  (capacity <= capacity')%N ->
  push capacity xs x = Done r ->
  push capacity' xs x = Done r.
Proof.
  intros Hle. unfold push.
  destruct (canPush capacity xs) eqn:E; [|discriminate].
  apply canPush_lt in E. pose proof (arrayRoom_mono _ _ Hle) as Hm.
  intros H. replace (canPush capacity' xs) with true; [exact H|].
  symmetry. apply canPush_lt. lia.
Qed.

Lemma range_loop_room capacity capacity' fuel :
  forall i end_ step result vs,
  (capacity <= capacity')%N ->
  range_loop capacity fuel i end_ step result = Done vs ->
  range_loop capacity' fuel i end_ step result = Done vs.
Proof.
  induction fuel as [|fuel IH]; intros i end_ step result vs Hle H;
    [discriminate|].
  cbn [range_loop] in *. destruct (leb i end_); [|exact H].
  destruct (push capacity result i) as [r| | |] eqn:E; try discriminate.
  rewrite (push_room _ _ _ _ _ Hle E). cbn [bind] in *. now apply IH.
Qed.

Lemma parsePart_room capacity capacity' fuel part result vs :
  (capacity <= capacity')%N ->
  parsePart capacity fuel part result = Done vs ->
  parsePart capacity' fuel part result = Done vs.
Proof.
  intros Hle. unfold parsePart. destruct (includes part hyphen).
  - destruct (parseRange part) as [[start end_] step].
    destruct (validRange start end_ step); [|auto].
    now apply range_loop_room.
  - destruct (negb (isNaN (parseFloat part))); [|auto].
    now apply push_room.
Qed.

Lemma parseParts_room capacity capacity' fuel parts : forall result vs,
  (capacity <= capacity')%N ->
  parseParts capacity fuel parts result = Done vs ->
  parseParts capacity' fuel parts result = Done vs.
Proof.
  induction parts as [|part parts IH]; intros result vs Hle H; [exact H|].
  cbn [parseParts] in *.
  destruct (parsePart capacity fuel part result) as [r| | |] eqn:E;
    try discriminate.
  rewrite (parsePart_room _ _ _ _ _ _ Hle E). cbn [bind] in *. now apply IH.
Qed.

Lemma parseValues_room capacity capacity' fuel input vs :
  (capacity <= capacity')%N ->
  parseValues capacity fuel input = Done vs ->
  parseValues capacity' fuel input = Done vs.
Proof. unfold parseValues. apply parseParts_room. Qed.


(** A call that returns at one capacity and fuel returns on every engine
    with that much room. *)
Lemma parseValues_returns room fuel input vs :
  parseValues room fuel input = Done vs ->
  returns room (fun capacity fuel => parseValues capacity fuel input) vs.
Proof.
  intros H capacity Hle. exists fuel. now apply (parseValues_room room).
Qed.

End Room.

(** ** generateParams *)

Section GenerateParams.
Import JS CreateTask Props.

Lemma skipn_nth_error {A} (l : list A) : forall i p,
  nth_error l i = Some p -> skipn i l = p :: skipn (S i) l.
Proof.
  induction l as [|a l IH]; intros [|i] p H; simpl in *; try discriminate.
  - now injection H as ->.
  - now apply IH.
Qed.

Lemma forEachValue_overrides target dims : forall combo index params,
  List.length combo + index <= List.length dims ->
  forEachValue target dims combo index params
  = Done (params ++ overrides target (skipn index dims) combo).
Proof.
  induction combo as [|v combo IH]; intros index params Hlen; simpl.
  - unfold overrides. rewrite combine_nil. simpl. now rewrite app_nil_r.
  - simpl in Hlen.
    destruct (nth_error dims index) as [p|] eqn:Hp.
    + rewrite IH by lia. rewrite (skipn_nth_error _ _ _ Hp).
      unfold overrides. simpl. now rewrite <- app_assoc.
    + apply nth_error_None in Hp. lia.
Qed.

Lemma mapOutcome_map {A B} (f : A -> outcome B) (g : A -> B) (xs : list A) :
  (forall x, In x xs -> f x = Done (g x)) ->
  mapOutcome f xs = Done (map g xs).
Proof.
  induction xs as [|x xs IH]; intros H; simpl; [reflexivity|].
  rewrite H by (simpl; auto). simpl.
  rewrite IH by (intros; apply H; simpl; auto). reflexivity.
Qed.

Lemma Forall2_length_eq {A B} (R : A -> B -> Prop) l l' :
  Forall2 R l l' -> List.length l = List.length l'.
Proof. induction 1; simpl; congruence. Qed.

Lemma pushParam_contribution capacity fuel fieldName config acc vs :
  contribution capacity fuel config = Done vs ->
  pushParam capacity fuel fieldName config acc
  = Done (acc ++ filter (fun p => negb (List.length (pa_values p) =? 0)%nat)
                   [{| pa_field := fieldName; pa_values := vs |}]).
Proof.
  unfold contribution, pushParam. destruct (enabled config).
  - intros ->. simpl. destruct vs; simpl; [now rewrite app_nil_r | reflexivity].
  - intros H. injection H as <-. simpl. now rewrite app_nil_r.
Qed.

Lemma collectParamArrays_participating capacity fuel st v1 v2 v3 :
  contribution capacity fuel (seedConfig st) = Done v1 ->
  contribution capacity fuel (stepsConfig st) = Done v2 ->
  contribution capacity fuel (cfgConfig st) = Done v3 ->
  collectParamArrays capacity fuel st = Done (participating v1 v2 v3).
Proof.
  intros H1 H2 H3. unfold collectParamArrays.
  rewrite (pushParam_contribution _ _ _ _ _ _ H1). cbn [bind].
  rewrite (pushParam_contribution _ _ _ _ _ _ H2). cbn [bind].
  rewrite (pushParam_contribution _ _ _ _ _ _ H3).
  unfold participating. f_equal.
  destruct v1, v2, v3; reflexivity.
Qed.

(** The expansion, once the dimensions are parsed: nothing when none
    participates, else the override sets of the ordered product. *)
Lemma generateParams_product capacity fuel st v1 v2 v3 :
  contribution capacity fuel (seedConfig st) = Done v1 ->
  contribution capacity fuel (stepsConfig st) = Done v2 ->
  contribution capacity fuel (cfgConfig st) = Done v3 ->
  generateParams capacity fuel st
  = Done match participating v1 v2 v3 with
         | [] => []
         | dims => map (overrides (nodeId st) dims)
                       (lexProduct (map pa_values dims))
         end.
Proof.
  intros H1 H2 H3. unfold generateParams.
  rewrite (collectParamArrays_participating _ _ _ _ _ _ H1 H2 H3). cbn [bind].
  destruct (participating v1 v2 v3) as [|d dims] eqn:E; [reflexivity|].
  cbn [List.length Nat.eqb]. rewrite cartesianProduct_lex.
  apply mapOutcome_map. intros combo Hin.
  rewrite forEachValue_overrides.
  - reflexivity.
  - apply in_lexProduct, Forall2_length_eq in Hin.
    rewrite length_map in Hin. lia.
Qed.



End GenerateParams.

(** ** The expansion: size, shape, order, the empty case *)

Section Expansion.
Import JS CreateTask Props.






Lemma pushParam_disable capacity fuel fieldName config acc :
  parseValues capacity fuel (values config) = Done [] ->
  pushParam capacity fuel fieldName config acc
  = pushParam capacity fuel fieldName (disable config) acc.
Proof.
  intros H. unfold pushParam, disable. simpl.
  destruct (enabled config); [now rewrite H | reflexivity].
Qed.

(** C5. When no dimension participates the expansion returns the empty
    list (where the bare product of no lists would be one empty
    combination), and a dimension whose specification parses to no value
    changes nothing: the expansion is the one with that dimension
    disabled. *)
Theorem expansion_without_participants :
  (forall capacity fuel st v1 v2 v3,
      contribution capacity fuel (seedConfig st) = Done v1 ->
      contribution capacity fuel (stepsConfig st) = Done v2 ->
      contribution capacity fuel (cfgConfig st) = Done v3 ->
      participating v1 v2 v3 = [] ->
      generateParams capacity fuel st = Done []
      /\ cartesianProduct (map pa_values (participating v1 v2 v3)) = [[]])
  /\ (forall capacity fuel st,
        parseValues capacity fuel (values (seedConfig st)) = Done [] ->
        generateParams capacity fuel st
        = generateParams capacity fuel
            (with_configs st (disable (seedConfig st)) (stepsConfig st) (cfgConfig st)))
  /\ (forall capacity fuel st,
        parseValues capacity fuel (values (stepsConfig st)) = Done [] ->
        generateParams capacity fuel st
        = generateParams capacity fuel
            (with_configs st (seedConfig st) (disable (stepsConfig st)) (cfgConfig st)))
  /\ (forall capacity fuel st,
        parseValues capacity fuel (values (cfgConfig st)) = Done [] ->
        generateParams capacity fuel st
        = generateParams capacity fuel
            (with_configs st (seedConfig st) (stepsConfig st) (disable (cfgConfig st)))).
Proof.
  split; [|split; [|split]].
  - intros capacity fuel st v1 v2 v3 H1 H2 H3 E.
    rewrite (generateParams_product _ _ _ _ _ _ H1 H2 H3), E. now split.
  - intros capacity fuel st H. unfold generateParams, collectParamArrays. simpl.
    now rewrite (pushParam_disable _ _ _ _ _ H).
  - intros capacity fuel st H. unfold generateParams, collectParamArrays. simpl.
    destruct (pushParam capacity fuel (str "seed") (seedConfig st) []); try reflexivity.
    simpl. now rewrite (pushParam_disable _ _ _ _ _ H).
  - intros capacity fuel st H. unfold generateParams, collectParamArrays. simpl.
    destruct (pushParam capacity fuel (str "seed") (seedConfig st) []); try reflexivity.
    simpl.
    destruct (pushParam capacity fuel (str "steps") (stepsConfig st) a); try reflexivity.
    simpl. now rewrite (pushParam_disable _ _ _ _ _ H).
Qed.

End Expansion.

(** ** Numbers: signs and NaN *)

Section NumberSigns.
Import JS Props.
Open Scope Z_scope.

Lemma shr_1_nonneg mrs : 0 <= shr_m mrs -> 0 <= shr_m (shr_1 mrs).
Proof.
  destruct mrs as [m r s]. simpl.
  destruct m as [|[p|p|]|p]; simpl; lia.
Qed.

Lemma iter_shr_1_nonneg p : forall mrs,
  0 <= shr_m mrs -> 0 <= shr_m (iter_pos shr_1 p mrs).
Proof.
  induction p as [p IH|p IH|]; intros mrs H; simpl.
  - apply IH, IH, shr_1_nonneg, H.
  - apply IH, IH, H.
  - apply shr_1_nonneg, H.
Qed.

Lemma shr_fexp_nonneg m e l :
  0 <= m -> 0 <= shr_m (fst (shr_fexp prec emax m e l)).
Proof.
  intros H. unfold shr_fexp, shr.
  assert (H0 : 0 <= shr_m (shr_record_of_loc m l))
    by (destruct l as [|[]]; exact H).
  destruct (fexp prec emax (Zdigits2 m + e) - e); simpl; try exact H0.
  now apply iter_shr_1_nonneg.
Qed.

Lemma round_nearest_even_nonneg m l : 0 <= m -> 0 <= round_nearest_even m l.
Proof.
  intros H. destruct l as [|[]]; simpl; try lia.
  destruct (Z.even m); lia.
Qed.

(** Rounding a non-negative mantissa gives a zero, a finite number or an
    infinity of the sign asked for, never NaN. *)
Lemma binary_round_aux_sign s m e l :
  0 <= m ->
  match binary_round_aux prec emax s m e l with
  | S754_zero s' | S754_infinity s' | S754_finite s' _ _ => s' = s
  | S754_nan => False
  end.
Proof.
  intros H. unfold binary_round_aux.
  pose proof (shr_fexp_nonneg m e l H) as H1.
  destruct (shr_fexp prec emax m e l) as [mrs' e'].
  pose proof (shr_fexp_nonneg _ e' loc_Exact
                (round_nearest_even_nonneg _ (loc_of_shr_record mrs') H1)) as H2.
  destruct (shr_fexp prec emax _ e' loc_Exact) as [mrs'' e''].
  simpl in H2. destruct (shr_m mrs''); try lia; try reflexivity.
  now destruct (e'' <=? emax - prec).
Qed.

Lemma binary_normalize_sign m e :
  0 <= m ->
  match binary_normalize prec emax m e false with
  | S754_zero s' | S754_infinity s' | S754_finite s' _ _ => s' = false
  | S754_nan => False
  end.
Proof.
  intros H. destruct m as [|p|p]; simpl; [reflexivity| |lia].
  unfold binary_round.
  destruct (shl_align p e _) as [mz ez].
  apply binary_round_aux_sign. lia.
Qed.

Lemma positive_or_zero_nonneg x : positive_or_zero x -> Props.nonneg x.
Proof. destruct x as [s|s| |s m e]; simpl; intros H; subst; try easy. Qed.

Lemma of_Z_sign z : 0 <= z -> positive_or_zero (of_Z z).
Proof.
  intros H. pose proof (binary_normalize_sign z 0 H) as Hs.
  unfold of_Z. destruct (binary_normalize prec emax z 0 false); simpl; auto.
Qed.

Lemma add_sign x y :
  positive_or_nan x -> positive_or_nan y -> positive_or_nan (add x y).
Proof.
  destruct x as [sx|sx| |sx mx ex], y as [sy|sy| |sy my ey]; simpl;
    intros Hx Hy; subst; try easy.
  - now destruct sx, sy.
  - set (z := _ + _).
    assert (Hz : 0 <= z) by (unfold z; simpl; lia).
    pose proof (binary_normalize_sign z (Z.min ex ey) Hz) as Hs.
    destruct (binary_normalize prec emax z (Z.min ex ey) false); simpl; auto.
Qed.

Lemma gtb_zero_sign x : gtb x (of_Z 0) = true -> positive_or_zero x.
Proof. destruct x as [s|[]| |[] m e]; simpl; try easy. Qed.

Lemma leb_not_nan x y : leb x y = true -> x <> NaN.
Proof. destruct x; simpl; easy. Qed.

Lemma of_decimal_sign neg m x :
  0 <= m ->
  match of_decimal neg m x with
  | S754_zero s' | S754_infinity s' | S754_finite s' _ _ => s' = neg
  | S754_nan => False
  end.
Proof.
  intros Hm. unfold of_decimal.
  destruct (m =? 0) eqn:E0; [reflexivity|].
  apply Z.eqb_neq in E0.
  destruct (0 <=? x) eqn:Ex.
  - apply Z.leb_le in Ex.
    assert (Hp : 0 < m * 10 ^ x) by (apply Z.mul_pos_pos; [lia | now apply Z.pow_pos_nonneg]).
    destruct (m * 10 ^ x) as [|p|p] eqn:Ep; try lia.
    destruct neg; simpl; unfold binary_round;
      destruct (shl_align p 0 _) as [mz ez];
      apply binary_round_aux_sign; lia.
  - apply Z.leb_gt in Ex.
    destruct (SFdiv_core_binary prec emax m 0 (10 ^ (- x)) 0) as [[q e] l] eqn:Ed.
    apply binary_round_aux_sign.
    unfold SFdiv_core_binary in Ed.
    set (m' := match _ - _ - _ with Z0 => m | Zpos _ => _ | Zneg _ => 0 end) in Ed.
    assert (Hm' : 0 <= m').
    { unfold m'. destruct (_ - _ - _); try lia. apply Z.shiftl_nonneg. lia. }
    assert (Hd : 0 < 10 ^ (- x)) by (apply Z.pow_pos_nonneg; lia).
    pose proof (Z.div_pos m' (10 ^ (- x)) Hm' Hd) as Hq.
    unfold Z.div in Hq. destruct (Z.div_eucl m' (10 ^ (- x))) as [q' r'].
    injection Ed as <- _ _. exact Hq.
Qed.

End NumberSigns.

(** ** Strings *)

Section Strings.
Import JS Props.

Lemma split_nonempty sep s : split sep s <> [].
Proof.
  destruct s as [|c r]; simpl; [discriminate|].
  destruct (c =? sep)%N; [discriminate|].
  destruct (split sep r); discriminate.
Qed.

Lemma split_app sep a b :
  split sep (a ++ sep :: b) = split sep a ++ split sep b.
Proof.
  induction a as [|c a IH]; simpl.
  - now rewrite N.eqb_refl.
  - destruct (c =? sep)%N; [now rewrite IH|].
    rewrite IH. pose proof (split_nonempty sep a) as Hne.
    destruct (split sep a); [contradiction | reflexivity].
Qed.

Lemma split_without sep s : includes s sep = false -> split sep s = [s].
Proof.
  unfold includes. induction s as [|c s IH]; simpl; [reflexivity|].
  intros H. apply orb_false_elim in H as [Hc Hs].
  rewrite N.eqb_sym, Hc, (IH Hs). reflexivity.
Qed.

Lemma split_pieces sep s :
  Forall (fun p => includes p sep = false) (split sep s).
Proof.
  induction s as [|c s IH]; simpl.
  - now constructor.
  - destruct (c =? sep)%N eqn:E.
    + now constructor.
    + destruct (split sep s) as [|p ps]; inversion IH; subst; constructor; auto.
      * unfold includes in *. simpl. now rewrite N.eqb_sym, E.
      * unfold includes. simpl. now rewrite N.eqb_sym, E.
Qed.

Lemma split_join segs :
  segs <> [] ->
  Forall (fun s => includes s comma = false) segs ->
  split comma (join segs) = segs.
Proof.
  induction segs as [|s segs IH]; intros Hne Hall; [contradiction|].
  inversion Hall as [|? ? Hs Hrest]; subst.
  destruct segs as [|s' segs].
  - simpl. now apply split_without.
  - change (join (s :: s' :: segs)) with (s ++ comma :: join (s' :: segs)).
    rewrite split_app, (split_without _ _ Hs), IH; [reflexivity|discriminate|assumption].
Qed.

Lemma includes_trimStart s c :
  includes s c = false -> includes (trimStart s) c = false.
Proof.
  unfold includes. induction s as [|d s IH]; simpl; [reflexivity|].
  intros H. destruct (isWhiteSpace d); [|exact H].
  apply orb_false_elim in H as [_ H]. now apply IH.
Qed.

End Strings.

(** ** parseValues *)

Section ParseValues.
Import JS CreateTask Props.

(** *** More fuel changes no result *)

Lemma range_loop_fuel capacity fuel : forall fuel' i end_ step result vs,
  range_loop capacity fuel i end_ step result = Done vs ->
  fuel <= fuel' ->
  range_loop capacity fuel' i end_ step result = Done vs.
Proof.
  induction fuel as [|fuel IH]; intros fuel' i end_ step result vs H Hle;
    [discriminate|].
  destruct fuel' as [|fuel']; [lia|]. cbn [range_loop] in *.
  destruct (leb i end_); [|exact H].
  destruct (push capacity result i) as [r| | |]; try discriminate.
  cbn [bind] in *. apply IH; [exact H | lia].
Qed.

Lemma parsePart_fuel capacity fuel fuel' part result vs :
  parsePart capacity fuel part result = Done vs ->
  fuel <= fuel' ->
  parsePart capacity fuel' part result = Done vs.
Proof.
  unfold parsePart. destruct (includes part hyphen); [|auto].
  destruct (parseRange part) as [[start end_] step].
  destruct (validRange start end_ step); [|auto].
  apply range_loop_fuel.
Qed.

Lemma parseParts_fuel capacity fuel fuel' parts : forall result vs,
  parseParts capacity fuel parts result = Done vs ->
  fuel <= fuel' ->
  parseParts capacity fuel' parts result = Done vs.
Proof.
  induction parts as [|part parts IH]; intros result vs H Hle; simpl in *;
    [exact H|].
  destruct (parsePart capacity fuel part result) as [r| | |] eqn:E; try discriminate.
  rewrite (parsePart_fuel _ _ _ _ _ _ E Hle). simpl in *. now apply IH.
Qed.

(** What [parseValues] returns does not depend on the fuel that let it
    return. *)
Lemma parseValues_returns_unique room room' input vs vs' :
  returns room (fun capacity fuel => parseValues capacity fuel input) vs ->
  returns room' (fun capacity fuel => parseValues capacity fuel input) vs' ->
  vs = vs'.
Proof.
  intros R R'.
  destruct (R (N.max room room') ltac:(lia)) as [f H].
  destruct (R' (N.max room room') ltac:(lia)) as [f' H'].
  unfold parseValues in *.
  apply parseParts_fuel with (fuel' := Nat.max f f') in H; [|lia].
  apply parseParts_fuel with (fuel' := Nat.max f f') in H'; [|lia].
  congruence.
Qed.

Lemma parseParts_app capacity fuel parts1 parts2 : forall result,
  parseParts capacity fuel (parts1 ++ parts2) result
  = bind (parseParts capacity fuel parts1 result) (parseParts capacity fuel parts2).
Proof.
  induction parts1 as [|p parts1 IH]; intros result; simpl; [reflexivity|].
  destruct (parsePart capacity fuel p result); simpl; auto.
Qed.

Lemma parseValues_join capacity fuel segs :
  segs <> [] ->
  Forall (fun s => includes s comma = false) segs ->
  parseValues capacity fuel (join segs) = parseSegments capacity fuel segs.
Proof.
  intros Hne Hall. unfold parseValues, parseSegments.
  now rewrite split_join.
Qed.

(** *** The examples of the specification *)

(** C3. ["1-5"] parses to [1,2,3,4,5], ["1-10:2"] to [1,3,5,7,9],
    ["1,2,3"] to [1,2,3] and ["abc"] to the empty list, on every engine
    whose arrays hold the values returned. *)
Theorem parseValues_examples :
  returns 5 (fun capacity fuel => parseValues capacity fuel (str "1-5"))
    (map of_Z [1; 2; 3; 4; 5]%Z)
  /\ returns 5 (fun capacity fuel => parseValues capacity fuel (str "1-10:2"))
       (map of_Z [1; 3; 5; 7; 9]%Z)
  /\ returns 3 (fun capacity fuel => parseValues capacity fuel (str "1,2,3"))
       (map of_Z [1; 2; 3]%Z)
  /\ returns 0 (fun capacity fuel => parseValues capacity fuel (str "abc")) [].
Proof.
  repeat split; apply (parseValues_returns _ 6); reflexivity.
Qed.

Lemma parseValues_examples_witness :
  exists fuel,
    parseValues 5 fuel (str "1-10:2") = Done (map of_Z [1; 3; 5; 7; 9]%Z).
Proof.
  apply (proj1 (proj2 parseValues_examples) 5%N). lia.
Defined.

End ParseValues.

(** ** What the two number parsers can return *)

Section Parsers.
Import JS CreateTask Props.

Lemma digitValue_nonneg c d : digitValue c = Some d -> (0 <= d)%Z.
Proof.
  unfold digitValue.
  destruct ((48 <=? c) && (c <=? 57))%N eqn:E1;
    [|destruct ((97 <=? c) && (c <=? 122))%N eqn:E2;
      [|destruct ((65 <=? c) && (c <=? 90))%N eqn:E3]];
    intros H; try discriminate; injection H as <-.
  - apply andb_true_iff in E1 as [E _]. apply N.leb_le in E. lia.
  - apply andb_true_iff in E2 as [E _]. apply N.leb_le in E. lia.
  - apply andb_true_iff in E3 as [E _]. apply N.leb_le in E. lia.
Qed.

Lemma digitsValue_nonneg R ds : (0 <= R)%Z -> (0 <= digitsValue R ds)%Z.
Proof.
  intros HR. unfold digitsValue.
  assert (H : forall acc, (0 <= acc)%Z ->
    (0 <= fold_left (fun acc c => match digitValue c with
                                  | Some d => acc * R + d
                                  | None => acc
                                  end)%Z ds acc)%Z).
  { induction ds as [|c ds IH]; intros acc Hacc; simpl; [exact Hacc|].
    apply IH. destruct (digitValue c) as [d|] eqn:E; [|exact Hacc].
    apply digitValue_nonneg in E. nia. }
  apply H. lia.
Qed.

Lemma stripSign_without_hyphen s :
  includes s hyphen = false -> fst (stripSign s) = false.
Proof.
  destruct s as [|c r]; [reflexivity|]. unfold includes, stripSign.
  cbn [existsb]. intros H. apply orb_false_elim in H as [H _].
  rewrite N.eqb_sym in H. unfold hyphen in H. rewrite H.
  now destruct (c =? 43)%N.
Qed.

Lemma stripPrefix_radix s : (0 <= fst (stripPrefix s))%Z.
Proof.
  unfold stripPrefix. destruct s as [|c [|x r]]; simpl; try lia.
  destruct ((c =? 48) && ((x =? 120) || (x =? 88)))%N; simpl; lia.
Qed.

Lemma parseInt_Z_nonneg s neg z :
  parseInt_Z s = Some (neg, z) -> (0 <= z)%Z.
Proof.
  unfold parseInt_Z. destruct (stripSign (trimStart s)) as [n s1].
  pose proof (stripPrefix_radix s1) as HR.
  destruct (stripPrefix s1) as [R s2]. simpl in HR.
  destruct (span (isRadixDigit R) s2) as [ds rest].
  destruct ds; [discriminate|].
  intros H. injection H as _ <-. now apply digitsValue_nonneg.
Qed.

(** [parseInt] of a text without ["-"] is NaN, a zero or positive. *)
Lemma parseInt_sign s :
  includes s hyphen = false -> positive_or_nan (parseInt s).
Proof.
  intros H. unfold parseInt.
  destruct (parseInt_Z s) as [[neg z]|] eqn:E; [|exact I].
  pose proof (parseInt_Z_nonneg _ _ _ E) as Hz.
  assert (neg = false) as ->.
  { unfold parseInt_Z in E.
    pose proof (stripSign_without_hyphen _ (includes_trimStart _ _ H)) as Hs.
    destruct (stripSign (trimStart s)) as [n s1]. simpl in Hs. subst n.
    destruct (stripPrefix s1) as [R s2].
    destruct (span (isRadixDigit R) s2) as [[|d ds] rest]; [discriminate|].
    now injection E as <- _. }
  destruct (z =? 0)%Z; [exact I|]. simpl.
  pose proof (of_Z_sign z Hz) as Hp.
  destruct (of_Z z); simpl in *; auto.
Qed.

Lemma unsignedDecimal_nonneg s m x :
  unsignedDecimal s = Some (Some (m, x)) -> (0 <= m)%Z.
Proof.
  unfold unsignedDecimal.
  destruct (startsWith (str "Infinity") s); [discriminate|].
  destruct (span isDecimalDigit s) as [ip r1].
  assert (Hplain : match ip with
                   | [] => None
                   | _ => Some (Some (digitsValue 10 ip, exponentPart r1))
                   end = Some (Some (m, x)) -> (0 <= m)%Z).
  { destruct ip; [discriminate|]. intros H. injection H as <- _.
    now apply digitsValue_nonneg. }
  destruct r1 as [|c r2]; [exact Hplain|].
  destruct (c =? 46)%N; [|exact Hplain].
  destruct (span isDecimalDigit r2) as [fp r3].
  destruct ip, fp; try discriminate;
    intros H; injection H as <- _; now apply digitsValue_nonneg.
Qed.

(** [parseFloat] of a text without ["-"] is NaN, a zero or positive. *)
Lemma parseFloat_sign s :
  includes s hyphen = false -> positive_or_nan (parseFloat s).
Proof.
  intros H. unfold parseFloat.
  pose proof (stripSign_without_hyphen _ (includes_trimStart _ _ H)) as Hs.
  destruct (stripSign (trimStart s)) as [neg s1]. simpl in Hs. subst neg.
  destruct (unsignedDecimal s1) as [[[m x]|]|] eqn:E; try exact I; [|reflexivity].
  pose proof (of_decimal_sign false m x (unsignedDecimal_nonneg _ _ _ E)) as Hd.
  destruct (of_decimal false m x); simpl; auto.
Qed.

Lemma span_digit_head p c r :
  span p (c :: r) = if p c then (c :: fst (span p r), snd (span p r)) else ([], c :: r).
Proof. simpl. destruct (p c); [|reflexivity]. now destruct (span p r). Qed.

(** [parseFloat] returns NaN exactly on the texts without a numeric
    prefix. *)
Lemma parseFloat_NaN s : isNaN (parseFloat s) = negb (numericPrefix s).
Proof.
  unfold parseFloat, numericPrefix.
  destruct (stripSign (trimStart s)) as [neg s1].
  assert (Hd : forall m x, (0 <= m)%Z -> isNaN (of_decimal neg m x) = false).
  { intros m x Hm. pose proof (of_decimal_sign neg m x Hm) as H.
    now destruct (of_decimal neg m x). }
  unfold unsignedDecimal.
  destruct (startsWith (str "Infinity") s1); [reflexivity|]. simpl.
  destruct s1 as [|c r]; [reflexivity|].
  rewrite span_digit_head.
  destruct (isDecimalDigit c) eqn:Ec.
  - simpl.
    destruct (snd (span isDecimalDigit r)) as [|c' r2].
    + apply Hd. now apply digitsValue_nonneg.
    + destruct (c' =? 46)%N.
      * destruct (span isDecimalDigit r2) as [fp r3].
        apply Hd. now apply digitsValue_nonneg.
      * apply Hd. now apply digitsValue_nonneg.
  - simpl. destruct (c =? 46)%N; [|reflexivity]. simpl.
    destruct r as [|d r']; [reflexivity|].
    rewrite span_digit_head. destruct (isDecimalDigit d); [|reflexivity].
    simpl. apply Hd. now apply digitsValue_nonneg.
Qed.

End Parsers.

(** ** The values parseValues returns *)

Section Values.
Import JS CreateTask Props.

Lemma range_loop_nonneg capacity fuel : forall i end_ step result vs,
  positive_or_nan i -> positive_or_nan step ->
  Forall nonneg result ->
  range_loop capacity fuel i end_ step result = Done vs ->
  Forall nonneg vs.
Proof.
  induction fuel as [|fuel IH]; intros i end_ step result vs Hi Hs Hr H;
    [discriminate|].
  cbn [range_loop] in H. destruct (leb i end_) eqn:E.
  - unfold push in H. destruct (canPush capacity result); [|discriminate].
    cbn [bind] in H. apply IH in H; auto.
    + now apply add_sign.
    + apply Forall_app. split; [assumption|]. constructor; [|constructor].
      apply positive_or_zero_nonneg. apply leb_not_nan in E.
      destruct i; simpl in *; auto.
  - now injection H as <-.
Qed.

Lemma parseRange_start_sign part :
  positive_or_nan (fst (fst (parseRange part))).
Proof.
  unfold parseRange. cbn [fst].
  pose proof (split_nonempty hyphen (hd [] (split colon part))) as Hne.
  pose proof (split_pieces hyphen (hd [] (split colon part))) as Hp.
  destruct (split hyphen (hd [] (split colon part))) as [|p ps]; [contradiction|].
  inversion Hp; subst. simpl. now apply parseInt_sign.
Qed.

Lemma parsePart_nonneg capacity fuel part result vs :
  Forall nonneg result ->
  parsePart capacity fuel part result = Done vs ->
  Forall nonneg vs.
Proof.
  intros Hr. unfold parsePart.
  destruct (includes part hyphen) eqn:Eh.
  - pose proof (parseRange_start_sign part) as Hstart.
    destruct (parseRange part) as [[start end_] step]. cbn [fst] in Hstart.
    destruct (validRange start end_ step) eqn:Ev.
    + apply range_loop_nonneg; auto.
      unfold validRange in Ev. apply andb_true_iff in Ev as [_ Hg].
      apply gtb_zero_sign in Hg. destruct step; simpl in *; auto.
    + intros H. now injection H as <-.
  - pose proof (parseFloat_sign part Eh) as Hv.
    unfold push.
    destruct (isNaN (parseFloat part)) eqn:En; simpl;
      [intros H; now injection H as <-|].
    destruct (canPush capacity result); [|discriminate].
    intros H; injection H as <-.
    apply Forall_app. split; [assumption|]. constructor; [|constructor].
    apply positive_or_zero_nonneg.
    destruct (parseFloat part); simpl in *; auto; discriminate.
Qed.

Lemma parseParts_nonneg capacity fuel parts : forall result vs,
  Forall nonneg result ->
  parseParts capacity fuel parts result = Done vs ->
  Forall nonneg vs.
Proof.
  induction parts as [|part parts IH]; intros result vs Hr H; simpl in H.
  - now injection H as <-.
  - destruct (parsePart capacity fuel part result) as [r| | |] eqn:E; try discriminate.
    simpl in H. eapply IH; [|exact H]. eapply parsePart_nonneg; eauto.
Qed.

(** C8. Every number [parseValues] returns is at least zero, and a part
    that begins with ["-"] is taken for a range whose start bound is the
    empty text, which is not a number: it adds nothing. *)
Theorem parseValues_nonneg :
  (forall capacity fuel input vs,
      parseValues capacity fuel input = Done vs -> Forall nonneg vs)
  /\ (forall capacity fuel rest result,
        includes (hyphen :: rest) hyphen = true
        /\ isNaN (fst (fst (parseRange (hyphen :: rest)))) = true
        /\ parsePart capacity fuel (hyphen :: rest) result = Done result).
Proof.
  split.
  - intros capacity fuel input vs H. unfold parseValues in H.
    eapply parseParts_nonneg; [|exact H]. constructor.
  - intros capacity fuel rest result.
    unfold parsePart, parseRange. cbn.
    destruct (split colon rest); cbn; auto.
Qed.

Lemma parseValues_nonneg_witness :
  Forall nonneg (map of_Z [1; 2; 3; 4; 5]%Z).
Proof.
  exact (proj1 parseValues_nonneg 100%N 6 (str "1-5") _ eq_refl).
Defined.

(** C10. A part without ["-"] is read by [parseFloat]: ["7.5"] gives the
    one value 7.5, which lies strictly between 7 and 8; ["7abc"] gives 7;
    and such a part pushes exactly the value [parseFloat] reads when it
    has a numeric prefix, and adds nothing otherwise. *)
Theorem literal_segments :
  returns 1 (fun capacity fuel => parseValues capacity fuel (str "7.5"))
    [seven_and_a_half]
  /\ gtb seven_and_a_half (of_Z 7) = true
  /\ gtb (of_Z 8) seven_and_a_half = true
  /\ returns 1 (fun capacity fuel => parseValues capacity fuel (str "7abc"))
       [of_Z 7]
  /\ (forall capacity fuel part result,
        includes part hyphen = false ->
        parsePart capacity fuel part result
        = if numericPrefix part
          then push capacity result (parseFloat part)
          else Done result).
Proof.
  split; [apply (parseValues_returns _ 0); reflexivity|].
  split; [reflexivity|].
  split; [reflexivity|].
  split; [apply (parseValues_returns _ 0); reflexivity|].
  intros capacity fuel part result H. unfold parsePart.
  rewrite H, parseFloat_NaN, negb_involutive. reflexivity.
Qed.

Lemma literal_segments_witness :
  parsePart 100 0 (str "7abc") [] = Done [of_Z 7]
  /\ parsePart 100 0 (str "abc") [] = Done [].
Proof.
  split.
  - exact (proj2 (proj2 (proj2 (proj2 literal_segments))) 100%N 0 (str "7abc") [] eq_refl).
  - exact (proj2 (proj2 (proj2 (proj2 literal_segments))) 100%N 0 (str "abc") [] eq_refl).
Defined.

End Values.

(** ** Task creation *)

Section Submit.
Import JS CreateTask Props.

Lemma expansion_without_participants_witness :
  generateParams 100 0 no_valid_seed = Done []
  /\ generateParams 100 0 no_valid_seed
     = generateParams 100 0
         (with_configs no_valid_seed
            (disable (seedConfig no_valid_seed))
            (stepsConfig no_valid_seed) (cfgConfig no_valid_seed)).
Proof.
  split.
  - exact (proj1 (proj1 expansion_without_participants 100%N 0 no_valid_seed [] [] []
                    eq_refl eq_refl eq_refl eq_refl)).
  - exact (proj1 (proj2 expansion_without_participants) 100%N 0 no_valid_seed eq_refl).
Defined.

(** C6. When the generated list of combinations is empty, [handleSubmit]
    sets an error for the user and returns without calling [createTask];
    and whenever it does call [createTask], the request carries the
    generated list, which is then not empty. *)
Theorem empty_expansion_rejected capacity fuel st env :
  (generateParams capacity fuel st = Done [] ->
   exists events msg,
     handleSubmit capacity fuel st env = Done events
     /\ In (SetError (Some msg)) events
     /\ forall req, ~ In (CreateTaskCall req) events)
  /\ (forall events req,
        handleSubmit capacity fuel st env = Done events ->
        In (CreateTaskCall req) events ->
        generateParams capacity fuel st = Done (ct_params req)
        /\ ct_params req <> []).
Proof.
  split.
  - intros H. unfold handleSubmit. rewrite H. cbn.
    destruct (trim (name st)).
    + exists [PreventDefault; SetError (Some NameRequired)], NameRequired.
      split; [reflexivity|]. split; [simpl; auto|].
      intros req [Hin|[Hin|[]]]; discriminate.
    + exists [PreventDefault; SetError (Some NoValidParams)], NoValidParams.
      split; [reflexivity|]. split; [simpl; auto|].
      intros req [Hin|[Hin|[]]]; discriminate.
  - intros events req. unfold handleSubmit.
    destruct (trim (name st)) as [|c t].
    + intros H. injection H as <-. intros [Hin|[Hin|[]]]; discriminate.
    + destruct (generateParams capacity fuel st) as [paramsList| | |]; try discriminate.
      cbn [bind].
      destruct paramsList as [|combo paramsList].
      * intros H. injection H as <-. intros [Hin|[Hin|[]]]; discriminate.
      * cbn [List.length Nat.eqb].
        destruct (getWorkflow env) as [alerts w] eqn:Ew.
        intros H. injection H as <-. intros Hin.
        assert (Halerts : forall a, In a alerts -> exists t, a = Alert t).
        { unfold getWorkflow in Ew.
          destruct (comfyApp env) as [app|];
            [destruct (negb (graph app));
             [|destruct (graphToPrompt app) as [|[wf|]];
               [| destruct (List.length (workflow_keys wf) =? 0)%nat |]]|];
            injection Ew as <- <-; intros a Ha; simpl in Ha;
            try contradiction; destruct Ha as [<-|[]]; eauto. }
        simpl in Hin.
        destruct Hin as [Hin|[Hin|[Hin|Hin]]]; try discriminate.
        apply in_app_or in Hin as [Hin|Hin].
        { apply Halerts in Hin as [txt Ht]. discriminate. }
        apply in_app_or in Hin as [Hin|Hin];
          [|destruct Hin as [Hin|[]]; discriminate].
        destruct w as [w|]; [|destruct Hin as [Hin|[Hin|[]]]; discriminate].
        destruct (List.length (workflow_keys w) =? 0)%nat;
          [destruct Hin as [Hin|[Hin|[]]]; discriminate|].
        simpl in Hin. destruct Hin as [Hin|[Hin|Hin]]; try discriminate.
        -- injection Hin as <-. simpl. split; [reflexivity|discriminate].
        -- destruct (success (server env _));
             simpl in Hin; intuition discriminate.
Qed.

Lemma empty_expansion_rejected_witness :
  handleSubmit 100 0 no_valid_seed ready_page
  = Done [PreventDefault; SetError (Some NoValidParams)]
  /\ exists events msg,
       handleSubmit 100 0 no_valid_seed ready_page = Done events
       /\ In (SetError (Some msg)) events
       /\ forall req, ~ In (CreateTaskCall req) events.
Proof.
  split.
  - reflexivity.
  - exact (proj1 (empty_expansion_rejected 100%N 0 no_valid_seed ready_page) eq_refl).
Defined.

End Submit.

(** ** Admission control *)

Section Admission.
Import Scheduler.

Lemma step_admission a sys sys' :
  admission sys -> step a sys = Some sys' -> admission sys'.
Proof.
  unfold admission, step. intros Hinv.
  destruct a as [n|task|task| | |h|h| ]; destruct (the_worker sys) as [|t k|t k h'] eqn:Ew;
    try discriminate;
    repeat match goal with
    | |- context [if ?c then _ else _] => destruct c eqn:?
    | |- context [match total_of ?t ?s with _ => _ end] => destruct (total_of t s)
    | |- context [match find ?f ?s with _ => _ end] => destruct (find f s)
    end;
    intros H; try discriminate; injection H as <-; simpl;
    rewrite ?Ew; try assumption; try reflexivity.
  - now rewrite Hinv.
  - rewrite Hinv. simpl. apply Nat.eqb_eq in Heqb. subst h'.
    now rewrite Nat.eqb_refl.
  - rewrite Hinv. simpl. apply Nat.eqb_eq in Heqb. subst h'.
    now rewrite Nat.eqb_refl.
Qed.

Lemma run_admission acts : forall sys sys',
  admission sys -> run acts sys = Some sys' -> admission sys'.
Proof.
  induction acts as [|a acts IH]; intros sys sys' Hinv H; simpl in H.
  - now injection H as <-.
  - destruct (step a sys) as [sys1|] eqn:E; [|discriminate].
    eapply IH; [|exact H]. eapply step_admission; eauto.
Qed.

(** C4. In every state the system reaches, the engine holds at most
    one unsettled submission, and while it holds one the worker cannot
    submit another: it is blocked on that one until the engine reports
    its success or its failure. *)
Theorem at_most_one_outstanding acts sys :
  run acts initial = Some sys ->
  List.length (outstanding sys) <= 1
  /\ (outstanding sys <> [] ->
      step Submit sys = None
      /\ exists task index handle,
           the_worker sys = Blocked task index handle
           /\ outstanding sys = [handle]).
Proof.
  intros H. apply run_admission in H; [|reflexivity].
  unfold admission in H. split.
  - rewrite H. destruct (the_worker sys); simpl; lia.
  - intros Hne. unfold step. rewrite H in Hne |- *.
    destruct (the_worker sys) as [|t k|t k h]; try contradiction.
    split; [reflexivity | eauto].
Qed.

Lemma at_most_one_outstanding_witness :
  exists sys,
    run [CreateTask 2; CreateTask 1; Poll; Submit; Succeeded 0; Submit] initial
    = Some sys
    /\ outstanding sys = [1]
    /\ step Submit sys = None.
Proof.
  eexists. split; [reflexivity|].
  split; [reflexivity|].
  refine (proj1 (proj2 (at_most_one_outstanding
            [CreateTask 2; CreateTask 1; Poll; Submit; Succeeded 0; Submit]
            _ eq_refl) _)).
  discriminate.
Defined.

End Admission.

(** ** Binary64 arithmetic on integers *)

Section Binary64.
Import JS CreateTask Props.
Open Scope Z_scope.

(** *** The number of binary digits *)

Lemma Zdigits2_bounds m :
  0 < m -> 2 ^ (Zdigits2 m - 1) <= m < 2 ^ Zdigits2 m.
Proof.
  destruct m as [|p|p]; try lia. intros _. cbn [Zdigits2].
  induction p as [p IH|p IH|]; cbn [digits2_pos].
  - rewrite Pos2Z.inj_succ.
    replace (Z.succ (Z.pos (digits2_pos p)) - 1) with (Z.succ (Z.pos (digits2_pos p) - 1)) by lia.
    rewrite !Z.pow_succ_r by lia. lia.
  - rewrite Pos2Z.inj_succ.
    replace (Z.succ (Z.pos (digits2_pos p)) - 1) with (Z.succ (Z.pos (digits2_pos p) - 1)) by lia.
    rewrite !Z.pow_succ_r by lia. lia.
  - simpl. lia.
Qed.

Lemma Zdigits2_unique m d :
  2 ^ (d - 1) <= m < 2 ^ d -> 0 < m -> Zdigits2 m = d.
Proof.
  intros [Hlo Hhi] Hm. pose proof (Zdigits2_bounds m Hm) as [Hlo' Hhi'].
  destruct (Z.lt_trichotomy (Zdigits2 m) d) as [Hlt|[Heq|Hgt]]; [|exact Heq|].
  - assert (2 ^ Zdigits2 m <= 2 ^ (d - 1)) by (apply Z.pow_le_mono_r; lia). lia.
  - assert (2 ^ d <= 2 ^ (Zdigits2 m - 1)) by (apply Z.pow_le_mono_r; lia). lia.
Qed.

Lemma Zdigits2_pos m : 0 < m -> 0 < Zdigits2 m.
Proof. destruct m; simpl; lia. Qed.

Lemma Zdigits2_shift m k :
  0 < m -> 0 <= k -> Zdigits2 (m * 2 ^ k) = Zdigits2 m + k.
Proof.
  intros Hm Hk. pose proof (Zdigits2_bounds m Hm) as [Hlo Hhi].
  pose proof (Zdigits2_pos m Hm) as Hd.
  assert (Hp : 0 < 2 ^ k) by (apply Z.pow_pos_nonneg; lia).
  apply Zdigits2_unique; [|nia].
  replace (Zdigits2 m + k - 1) with ((Zdigits2 m - 1) + k) by lia.
  rewrite !Z.pow_add_r by lia. nia.
Qed.

Lemma Zdigits2_mono m m' : 0 < m -> m <= m' -> Zdigits2 m <= Zdigits2 m'.
Proof.
  intros Hm Hle.
  pose proof (Zdigits2_bounds m Hm) as [Hlo _].
  pose proof (Zdigits2_bounds m' ltac:(lia)) as [_ Hhi].
  destruct (Z.le_gt_cases (Zdigits2 m) (Zdigits2 m')) as [H|H]; [exact H|].
  assert (2 ^ Zdigits2 m' <= 2 ^ (Zdigits2 m - 1)) by (apply Z.pow_le_mono_r; lia).
  lia.
Qed.

Lemma Zdigits2_div m n :
  0 < m -> 0 <= n < Zdigits2 m ->
  0 < m / 2 ^ n /\ Zdigits2 (m / 2 ^ n) = Zdigits2 m - n.
Proof.
  intros Hm Hn. pose proof (Zdigits2_bounds m Hm) as [Hlo Hhi].
  assert (Hp : 0 < 2 ^ n) by (apply Z.pow_pos_nonneg; lia).
  assert (Hq : 2 ^ (Zdigits2 m - n - 1) <= m / 2 ^ n).
  { apply Z.div_le_lower_bound; [lia|].
    rewrite <- Z.pow_add_r by lia.
    now replace (n + (Zdigits2 m - n - 1)) with (Zdigits2 m - 1) by lia. }
  assert (Hq' : m / 2 ^ n < 2 ^ (Zdigits2 m - n)).
  { apply Z.div_lt_upper_bound; [lia|].
    rewrite <- Z.pow_add_r by lia.
    now replace (n + (Zdigits2 m - n)) with (Zdigits2 m) by lia. }
  assert (H0 : 0 < 2 ^ (Zdigits2 m - n - 1)) by (apply Z.pow_pos_nonneg; lia).
  split; [lia|]. apply Zdigits2_unique; [|lia]. split; assumption.
Qed.

(** *** Shifting a mantissa *)

Lemma iter_pos_nat {A} (f : A -> A) p : forall x,
  iter_pos f p x = Nat.iter (Pos.to_nat p) f x.
Proof.
  induction p as [p IH|p IH|]; intros x; cbn [iter_pos].
  - rewrite !IH, Pos2Nat.inj_xI.
    replace (S (2 * Pos.to_nat p))%nat with (Pos.to_nat p + (Pos.to_nat p + 1))%nat by lia.
    rewrite !Nat.iter_add. reflexivity.
  - rewrite !IH, Pos2Nat.inj_xO.
    replace (2 * Pos.to_nat p)%nat with (Pos.to_nat p + Pos.to_nat p)%nat by lia.
    rewrite Nat.iter_add. reflexivity.
  - reflexivity.
Qed.

Lemma shr_1_half mrs :
  0 <= shr_m mrs -> shr_m (shr_1 mrs) = shr_m mrs / 2.
Proof.
  destruct mrs as [m r s]. cbn [shr_m]. intros H.
  rewrite <- Z.div2_div.
  destruct m as [|[p|p|]|p]; try reflexivity; lia.
Qed.

Lemma iter_shr_1_div n : forall mrs,
  0 <= shr_m mrs ->
  shr_m (Nat.iter n shr_1 mrs) = shr_m mrs / 2 ^ Z.of_nat n.
Proof.
  induction n as [|n IH]; intros mrs H.
  - simpl. now rewrite Z.div_1_r.
  - rewrite Nat.iter_succ. rewrite shr_1_half.
    + rewrite IH by assumption. rewrite Nat2Z.inj_succ, Z.pow_succ_r by lia.
      rewrite Z.div_div by (try apply Z.pow_pos_nonneg; lia).
      now rewrite Z.mul_comm.
    + rewrite IH by assumption. apply Z.div_pos; [assumption|].
      apply Z.pow_pos_nonneg; lia.
Qed.

Lemma shr_1_even m :
  0 <= m ->
  shr_1 {| shr_m := 2 * m; shr_r := false; shr_s := false |}
  = {| shr_m := m; shr_r := false; shr_s := false |}.
Proof. destruct m as [|p|p]; try reflexivity; lia. Qed.

Lemma iter_shr_1_exact n : forall q,
  0 <= q ->
  Nat.iter n shr_1 {| shr_m := q * 2 ^ Z.of_nat n; shr_r := false; shr_s := false |}
  = {| shr_m := q; shr_r := false; shr_s := false |}.
Proof.
  induction n as [|n IH]; intros q Hq.
  - simpl. now rewrite Z.mul_1_r.
  - rewrite Nat.iter_succ_r.
    rewrite Nat2Z.inj_succ, Z.pow_succ_r by lia.
    replace (q * (2 * 2 ^ Z.of_nat n)) with (2 * (q * 2 ^ Z.of_nat n)) by lia.
    rewrite shr_1_even; [now apply IH|].
    apply Z.mul_nonneg_nonneg; [assumption|]. apply Z.pow_nonneg. lia.
Qed.

Lemma iter_xO m d : Z.pos (Pos.iter xO m d) = Z.pos m * 2 ^ Z.pos d.
Proof.
  induction d as [|d IH] using Pos.peano_ind.
  - cbn [Pos.iter]. rewrite Pos2Z.inj_xO. lia.
  - rewrite Pos.iter_succ, Pos2Z.inj_succ, Z.pow_succ_r by lia.
    rewrite Pos2Z.inj_xO, IH. lia.
Qed.

Lemma shl_align_value mx ex ez :
  ez <= ex ->
  Z.pos (fst (shl_align mx ex ez)) = Z.pos mx * 2 ^ (ex - ez).
Proof.
  intros H. unfold shl_align.
  destruct (ez - ex) as [|d|d] eqn:E; try lia; cbn [fst].
  - replace (ex - ez) with 0 by lia. lia.
  - rewrite iter_xO. f_equal. f_equal. lia.
Qed.

Lemma fexp_normal d : -1021 <= d -> fexp prec emax d = d - 53.
Proof. unfold fexp, SpecFloat.emin, prec, emax. lia. Qed.

(** *** Rounding what needs no rounding *)

Lemma shr_exact C n e :
  0 <= C -> 0 <= n ->
  shr {| shr_m := C * 2 ^ n; shr_r := false; shr_s := false |} e n
  = ({| shr_m := C; shr_r := false; shr_s := false |}, e + n).
Proof.
  intros HC Hn. unfold shr. destruct n as [|p|p]; try lia.
  - now rewrite Z.mul_1_r, Z.add_0_r.
  - rewrite iter_pos_nat. rewrite <- (positive_nat_Z p) at 1.
    now rewrite iter_shr_1_exact.
Qed.

Lemma shr_fexp_exact C n e :
  0 < C -> Zdigits2 C = 53 -> 0 <= n -> -1074 <= e + n ->
  shr_fexp prec emax (C * 2 ^ n) e loc_Exact
  = ({| shr_m := C; shr_r := false; shr_s := false |}, e + n).
Proof.
  intros HC Hd Hn He. unfold shr_fexp.
  rewrite Zdigits2_shift, Hd, fexp_normal by lia.
  replace (53 + n + e - 53 - e) with n by lia.
  apply shr_exact; lia.
Qed.

Lemma binary_round_aux_exact s C n e :
  0 < C -> Zdigits2 C = 53 -> 0 <= n -> -1074 <= e + n <= 971 ->
  binary_round_aux prec emax s (C * 2 ^ n) e loc_Exact
  = S754_finite s (Z.to_pos C) (e + n).
Proof.
  intros HC Hd Hn He. unfold binary_round_aux.
  rewrite shr_fexp_exact by lia. cbn [shr_m loc_of_shr_record round_nearest_even].
  pose proof (shr_fexp_exact C 0 (e + n) HC Hd ltac:(lia) ltac:(lia)) as H2.
  rewrite Z.mul_1_r, Z.add_0_r in H2. rewrite H2. cbn [shr_m].
  destruct C as [|c|c]; try lia.
  replace (e + n <=? emax - prec) with true; [reflexivity|].
  symmetry. apply Z.leb_le. unfold emax, prec. lia.
Qed.

Lemma small_digits N : 0 < N < 2 ^ 53 -> 1 <= Zdigits2 N <= 53.
Proof.
  intros [H0 H]. pose proof (Zdigits2_bounds N H0) as [Hlo _].
  pose proof (Zdigits2_pos N H0).
  split; [lia|].
  destruct (Z.le_gt_cases (Zdigits2 N) 53) as [Hle|Hgt]; [exact Hle|].
  assert (2 ^ 53 <= 2 ^ (Zdigits2 N - 1)) by (apply Z.pow_le_mono_r; lia). lia.
Qed.

Lemma binary_round_exact N e mx :
  0 < N < 2 ^ 53 -> e <= 0 -> Z.pos mx = N * 2 ^ (- e) ->
  binary_round prec emax false mx e = canonical N.
Proof.
  intros HN He Hmx. remember (- e) as k eqn:Ek.
  assert (e = - k) by lia. subst e. assert (Hk : 0 <= k) by lia. clear Ek He.
  pose proof (small_digits N HN) as Hd.
  set (d := Zdigits2 N) in *.
  assert (HC : 0 < N * 2 ^ (53 - d)).
  { apply Z.mul_pos_pos; [lia|]. apply Z.pow_pos_nonneg; lia. }
  assert (HdC : Zdigits2 (N * 2 ^ (53 - d)) = 53).
  { rewrite Zdigits2_shift by lia. fold d. lia. }
  unfold binary_round.
  change (Z.pos (digits2_pos mx)) with (Zdigits2 (Z.pos mx)).
  rewrite Hmx, Zdigits2_shift by lia. fold d.
  rewrite fexp_normal by lia.
  unfold shl_align.
  destruct (d + k + - k - 53 - - k) as [|p|p] eqn:E.
  - (* already aligned *)
    rewrite Hmx. replace k with (53 - d) in * by lia.
    rewrite <- (Z.mul_1_r (N * 2 ^ (53 - d))) at 1.
    change 1 with (2 ^ 0).
    rewrite binary_round_aux_exact by lia.
    unfold canonical. fold d. f_equal. lia.
  - (* more digits than the mantissa holds, all zero *)
    rewrite Hmx.
    replace (N * 2 ^ k) with (N * 2 ^ (53 - d) * 2 ^ (d + k - 53)).
    + rewrite binary_round_aux_exact by lia.
      unfold canonical. fold d. f_equal. lia.
    + assert (Hpow : 2 ^ (53 - d) * 2 ^ (d + k - 53) = 2 ^ k)
        by (rewrite <- Z.pow_add_r by lia; f_equal; lia).
      rewrite <- Hpow. ring.
  - (* fewer digits: the mantissa is shifted left *)
    rewrite iter_xO, Hmx.
    replace (N * 2 ^ k * 2 ^ Z.pos p) with (N * 2 ^ (53 - d) * 2 ^ 0).
    + rewrite binary_round_aux_exact by lia.
      unfold canonical. fold d. f_equal. lia.
    + assert (Hpow : 2 ^ k * 2 ^ Z.pos p = 2 ^ (53 - d))
        by (rewrite <- Z.pow_add_r by lia; f_equal; lia).
      rewrite Z.pow_0_r, Z.mul_1_r, <- Hpow. ring.
Qed.

Lemma of_Z_canonical N : 0 < N < 2 ^ 53 -> of_Z N = canonical N.
Proof.
  intros HN. unfold of_Z. destruct N as [|p|p]; try lia.
  cbn [binary_normalize]. apply binary_round_exact; simpl; lia.
Qed.

(** *** Rounding at and above 2^53 *)

Lemma shr_m_of_loc m l : shr_m (shr_record_of_loc m l) = m.
Proof. now destruct l as [|[]]. Qed.

Lemma shr_value mrs e n :
  0 <= shr_m mrs -> 0 <= n ->
  shr_m (fst (shr mrs e n)) = shr_m mrs / 2 ^ n /\ snd (shr mrs e n) = e + n.
Proof.
  intros Hm Hn. unfold shr. destruct n as [|p|p]; try lia; cbn [fst snd].
  - now rewrite Z.div_1_r, Z.add_0_r.
  - rewrite iter_pos_nat, iter_shr_1_div, positive_nat_Z by assumption. auto.
Qed.

Lemma round_nearest_even_bounds m l :
  m <= round_nearest_even m l <= m + 1.
Proof. destruct l as [|[]]; simpl; try lia. destruct (Z.even m); lia. Qed.

Lemma binary_round_aux_big m e l :
  0 < m -> e <= 0 -> 54 <= Zdigits2 m + e ->
  beyond_safe (binary_round_aux prec emax false m e l).
Proof.
  intros Hm He Hd. unfold binary_round_aux.
  set (d := Zdigits2 m) in *.
  (* the first shift leaves 53 digits *)
  unfold shr_fexp at 1. fold d. rewrite fexp_normal by lia.
  replace (d + e - 53 - e) with (d - 53) by lia.
  pose proof (shr_value (shr_record_of_loc m l) e (d - 53)) as H1.
  rewrite shr_m_of_loc in H1. destruct H1 as [H1m H1e]; try lia.
  destruct (shr (shr_record_of_loc m l) e (d - 53)) as [mrs' e'].
  cbn [fst snd] in H1m, H1e.
  destruct (Zdigits2_div m (d - 53) Hm ltac:(fold d; lia)) as [Hq Hdq].
  fold d in Hdq. rewrite <- H1m in Hq, Hdq.
  set (m1 := shr_m mrs') in *.
  pose proof (Zdigits2_bounds m1 Hq) as Hb1.
  replace (Zdigits2 m1) with 53 in Hb1 by lia.
  (* rounding adds at most one *)
  pose proof (round_nearest_even_bounds m1 (loc_of_shr_record mrs')) as Hr.
  set (m2 := round_nearest_even m1 (loc_of_shr_record mrs')) in *.
  assert (Hd2 : Zdigits2 m2 = 53 \/ Zdigits2 m2 = 54).
  { destruct (Z.eq_dec m2 (2 ^ 53)) as [->|Hne]; [now right|left].
    apply Zdigits2_unique; lia. }
  (* the second shift restores 53 digits *)
  unfold shr_fexp. rewrite fexp_normal by lia.
  replace (Zdigits2 m2 + e' - 53 - e') with (Zdigits2 m2 - 53) by lia.
  pose proof (shr_value (shr_record_of_loc m2 loc_Exact) e' (Zdigits2 m2 - 53)) as H2.
  rewrite shr_m_of_loc in H2. destruct H2 as [H2m H2e]; try lia.
  destruct (shr (shr_record_of_loc m2 loc_Exact) e' (Zdigits2 m2 - 53)) as [mrs'' e''].
  cbn [fst snd] in H2m, H2e.
  destruct (Zdigits2_div m2 (Zdigits2 m2 - 53) ltac:(lia) ltac:(lia)) as [Hq2 Hdq2].
  rewrite <- H2m in Hq2, Hdq2.
  destruct (shr_m mrs'') as [|q|q]; try lia.
  destruct (e'' <=? emax - prec); simpl; [|exact I].
  cbn [Zdigits2] in Hdq2. lia.
Qed.

Lemma binary_round_big mx e :
  e <= 0 -> 54 <= Z.pos (digits2_pos mx) + e ->
  beyond_safe (binary_round prec emax false mx e).
Proof.
  intros He Hd. unfold binary_round.
  rewrite fexp_normal by lia. unfold shl_align.
  destruct (Z.pos (digits2_pos mx) + e - 53 - e) eqn:E; try lia.
  apply binary_round_aux_big; cbn [Zdigits2]; lia.
Qed.

Lemma of_Z_big A : 2 ^ 53 <= A -> beyond_safe (of_Z A).
Proof.
  intros HA. unfold of_Z. destruct A as [|p|p]; try lia.
  cbn [binary_normalize].
  assert (Hd : 54 <= Zdigits2 (Z.pos p)).
  { change 54 with (Zdigits2 (2 ^ 53)). apply Zdigits2_mono; lia. }
  apply binary_round_big; [lia | exact (proj1 (Z.add_le_mono_r _ _ 0) Hd)].
Qed.

(** *** Adding *)

Lemma add_finite mx ex my ey :
  add (S754_finite false mx ex) (S754_finite false my ey)
  = binary_round prec emax false
      (fst (shl_align mx ex (Z.min ex ey)) + fst (shl_align my ey (Z.min ex ey)))%positive
      (Z.min ex ey).
Proof. reflexivity. Qed.

Lemma canonical_value N :
  0 < N < 2 ^ 53 ->
  exists m, canonical N = S754_finite false m (Zdigits2 N - 53)
            /\ Z.pos m = N * 2 ^ (53 - Zdigits2 N).
Proof.
  intros HN. pose proof (small_digits N HN) as Hd.
  eexists. split; [reflexivity|]. apply Z2Pos.id.
  apply Z.mul_pos_pos; [lia|]. apply Z.pow_pos_nonneg; lia.
Qed.

(** The aligned mantissas of two integers below 2^53 add up to their
    sum. *)
Lemma aligned_sum a b ma mb :
  0 < a < 2 ^ 53 -> 0 < b < 2 ^ 53 ->
  Z.pos ma = a * 2 ^ (53 - Zdigits2 a) ->
  Z.pos mb = b * 2 ^ (53 - Zdigits2 b) ->
  let ea := Zdigits2 a - 53 in
  let eb := Zdigits2 b - 53 in
  Z.pos (fst (shl_align ma ea (Z.min ea eb)) + fst (shl_align mb eb (Z.min ea eb)))
  = (a + b) * 2 ^ (- Z.min ea eb).
Proof.
  intros Ha Hb Hma Hmb ea eb.
  pose proof (small_digits a Ha). pose proof (small_digits b Hb).
  rewrite Pos2Z.inj_add, !shl_align_value, Hma, Hmb by lia.
  set (ez := Z.min ea eb).
  assert (Hpa : 2 ^ (53 - Zdigits2 a) * 2 ^ (ea - ez) = 2 ^ (- ez))
    by (rewrite <- Z.pow_add_r by lia; f_equal; lia).
  assert (Hpb : 2 ^ (53 - Zdigits2 b) * 2 ^ (eb - ez) = 2 ^ (- ez))
    by (rewrite <- Z.pow_add_r by lia; f_equal; lia).
  rewrite <- !Z.mul_assoc, Hpa, Hpb. ring.
Qed.

Lemma add_canonical a b :
  0 < a < 2 ^ 53 -> 0 < b < 2 ^ 53 ->
  (a + b < 2 ^ 53 -> add (canonical a) (canonical b) = canonical (a + b))
  /\ (2 ^ 53 <= a + b -> beyond_safe (add (canonical a) (canonical b))).
Proof.
  intros Ha Hb.
  pose proof (small_digits a Ha). pose proof (small_digits b Hb).
  destruct (canonical_value a Ha) as (ma & -> & Hma).
  destruct (canonical_value b Hb) as (mb & -> & Hmb).
  rewrite add_finite.
  pose proof (aligned_sum a b ma mb Ha Hb Hma Hmb) as Hsum. cbv zeta in Hsum.
  set (M := (_ + _)%positive) in *.
  set (ez := Z.min _ _) in *.
  split; intros Hab.
  - apply binary_round_exact; [lia | lia | exact Hsum].
  - apply binary_round_big; [lia|].
    change (Z.pos (digits2_pos M)) with (Zdigits2 (Z.pos M)).
    rewrite Hsum, Zdigits2_shift by lia.
    assert (54 <= Zdigits2 (a + b)).
    { change 54 with (Zdigits2 (2 ^ 53)). apply Zdigits2_mono; lia. }
    lia.
Qed.


Lemma of_Z_small a :
  0 <= a < 2 ^ 53 ->
  of_Z a = S754_zero false
  \/ exists m e, of_Z a = S754_finite false m e /\ e <= 0.
Proof.
  intros Ha. destruct (Z.eq_dec a 0) as [->|Hne]; [now left|right].
  rewrite of_Z_canonical by lia.
  pose proof (small_digits a ltac:(lia)).
  eexists _, _. split; [reflexivity|lia].
Qed.

Lemma add_beyond a y :
  0 <= a < 2 ^ 53 -> beyond_safe y -> beyond_safe (add (of_Z a) y).
Proof.
  intros Ha Hy.
  destruct (of_Z_small a Ha) as [->|(ma & ea & -> & Hea)].
  - destruct y as [s|[]| |[] m e]; simpl in *; try contradiction; auto.
  - destruct y as [s|[]| |[] my ey]; simpl in Hy; try contradiction; [exact I|].
    destruct Hy as [Hey Hdy]. rewrite add_finite.
    replace (Z.min ea ey) with ea by lia.
    apply binary_round_big; [lia|].
    set (A := fst (shl_align ma ea ea)). set (B := fst (shl_align my ey ea)).
    assert (HB : Z.pos B = Z.pos my * 2 ^ (ey - ea))
      by (apply shl_align_value; lia).
    assert (Hd : Zdigits2 (Z.pos B) = Zdigits2 (Z.pos my) + (ey - ea))
      by (rewrite HB; apply Zdigits2_shift; lia).
    pose proof (Zdigits2_mono (Z.pos B) (Z.pos (A + B)) ltac:(lia) ltac:(lia)) as Hm.
    cbn [Zdigits2] in Hd, Hm. lia.
Qed.

Lemma beyond_gt x E :
  beyond_safe x -> 0 <= E < 2 ^ 53 -> leb x (of_Z E) = false.
Proof.
  intros Hx HE.
  destruct x as [s|[]| |[] m e]; simpl in Hx; try contradiction.
  - destruct (of_Z_small E HE) as [->|(m' & e' & -> & _)]; reflexivity.
  - destruct (of_Z_small E HE) as [->|(m' & e' & -> & He')]; [reflexivity|].
    unfold leb, SFleb, SFcompare.
    replace (e ?= e') with Gt; [reflexivity|].
    symmetry. apply Z.compare_gt_iff. lia.
Qed.

End Binary64.

Section Termination.
Import JS CreateTask Props.
Open Scope Z_scope.


(** *** The range loop at 2^53 *)

(** The counter does not move: the condition of the loop holds at every
    iteration. *)
Lemma stuck_at_2_53 capacity fuel : forall result vs,
  range_loop capacity fuel (of_Z (2 ^ 53)) (of_Z (2 ^ 53)) (of_Z 1) result
  <> Done vs.
Proof.
  induction fuel as [|fuel IH]; intros result vs; [discriminate|].
  cbn [range_loop].
  change (leb (of_Z (2 ^ 53)) (of_Z (2 ^ 53))) with true. cbv iota.
  unfold push. destruct (canPush capacity result); [|discriminate].
  cbn [bind].
  change (add (of_Z (2 ^ 53)) (of_Z 1)) with (of_Z (2 ^ 53)).
  apply IH.
Qed.

(** Every iteration pushes: the loop is left when the array is full. *)
Lemma full_at_2_53 capacity : forall n result,
  (N.to_nat (arrayRoom capacity) - List.length result <= n)%nat ->
  range_loop capacity (S n) (of_Z (2 ^ 53)) (of_Z (2 ^ 53)) (of_Z 1) result
  = RangeError.
Proof.
  induction n as [|n IH]; intros result Hn.
  - cbn [range_loop].
    change (leb (of_Z (2 ^ 53)) (of_Z (2 ^ 53))) with true. cbv iota.
    unfold push. replace (canPush capacity result) with false; [reflexivity|].
    symmetry. apply canPush_ge. lia.
  - remember (S n) as fuel. cbn [range_loop].
    change (leb (of_Z (2 ^ 53)) (of_Z (2 ^ 53))) with true. cbv iota.
    unfold push. destruct (canPush capacity result) eqn:Ep; [|reflexivity].
    cbn [bind].
    change (add (of_Z (2 ^ 53)) (of_Z 1)) with (of_Z (2 ^ 53)).
    subst fuel. apply IH. rewrite length_app. cbn [List.length]. lia.
Qed.

(** C9 fails on the code. On ["9007199254740992-9007199254740992"] both
    bounds are 2^53 and the step is 1, which passes the guard of the
    loop; adding the step to the counter rounds back to 2^53, so the
    condition of the loop holds at every iteration: the call returns on
    no engine, and it ends only by the RangeError of [push] once the
    array is full. *)
Theorem range_at_2_53_never_returns capacity :
  let input := str "9007199254740992-9007199254740992" in
  parseRange input = (of_Z (2 ^ 53), of_Z (2 ^ 53), of_Z 1)
  /\ validRange (of_Z (2 ^ 53)) (of_Z (2 ^ 53)) (of_Z 1) = true
  /\ add (of_Z (2 ^ 53)) (of_Z 1) = of_Z (2 ^ 53)
  /\ neverReturns (fun fuel => parseValues capacity fuel input)
  /\ throwsRangeError (fun fuel => parseValues capacity fuel input).
Proof.
  intros input.
  assert (Hrun : forall fuel,
             parseValues capacity fuel input
             = bind (range_loop capacity fuel
                       (of_Z (2 ^ 53)) (of_Z (2 ^ 53)) (of_Z 1) [])
                    (parseParts capacity fuel [])) by reflexivity.
  split; [reflexivity|]. split; [reflexivity|]. split; [reflexivity|].
  split.
  - intros fuel vs. rewrite Hrun.
    destruct (range_loop capacity fuel _ _ _ []) as [r| | |] eqn:E;
      try discriminate.
    now apply stuck_at_2_53 in E.
  - exists (S (N.to_nat (arrayRoom capacity))). rewrite Hrun.
    rewrite full_at_2_53 by lia. reflexivity.
Qed.

End Termination.

(** ** Range segments: the values they stand for *)

Section Order.
Import JS CreateTask Props Ranges.
Open Scope Z_scope.

Lemma canonical_leb a b :
  0 < a < 2 ^ 53 -> 0 < b < 2 ^ 53 ->
  leb (canonical a) (canonical b) = (a <=? b).
Proof.
  intros Ha Hb.
  pose proof (small_digits a Ha) as Hda. pose proof (small_digits b Hb) as Hdb.
  pose proof (Zdigits2_bounds a ltac:(lia)) as Hba.
  pose proof (Zdigits2_bounds b ltac:(lia)) as Hbb.
  destruct (canonical_value a Ha) as (ma & -> & Hma).
  destruct (canonical_value b Hb) as (mb & -> & Hmb).
  unfold leb, SFleb, SFcompare.
  destruct (Z.compare_spec (Zdigits2 a - 53) (Zdigits2 b - 53)) as [E|E|E].
  - change (Pos.compare_cont Eq ma mb) with (ma ?= mb)%positive.
    rewrite Pos2Z.inj_compare, Hma, Hmb.
    replace (Zdigits2 b) with (Zdigits2 a) by lia.
    assert (Hp : 0 < 2 ^ (53 - Zdigits2 a)) by (apply Z.pow_pos_nonneg; lia).
    destruct (Z.compare_spec (a * 2 ^ (53 - Zdigits2 a)) (b * 2 ^ (53 - Zdigits2 a)));
      symmetry; [apply Z.leb_le|apply Z.leb_le|apply Z.leb_gt]; nia.
  - assert (2 ^ Zdigits2 a <= 2 ^ (Zdigits2 b - 1)) by (apply Z.pow_le_mono_r; lia).
    symmetry. apply Z.leb_le. lia.
  - assert (2 ^ Zdigits2 b <= 2 ^ (Zdigits2 a - 1)) by (apply Z.pow_le_mono_r; lia).
    symmetry. apply Z.leb_gt. lia.
Qed.

(** On integers below 2^53, [<=] on Numbers is [<=] on the integers. *)
Lemma of_Z_leb a b :
  0 <= a < 2 ^ 53 -> 0 <= b < 2 ^ 53 ->
  leb (of_Z a) (of_Z b) = (a <=? b).
Proof.
  intros Ha Hb.
  destruct (Z.eq_dec a 0) as [->|Hna]; destruct (Z.eq_dec b 0) as [->|Hnb].
  - reflexivity.
  - rewrite (of_Z_canonical b) by lia. symmetry. apply Z.leb_le. lia.
  - rewrite (of_Z_canonical a) by lia. symmetry. apply Z.leb_gt. lia.
  - rewrite !of_Z_canonical by lia. apply canonical_leb; lia.
Qed.

Lemma add_of_Z_split a s :
  0 <= a < 2 ^ 53 -> 1 <= s ->
  (a + s < 2 ^ 53 -> add (of_Z a) (of_Z s) = of_Z (a + s))
  /\ (2 ^ 53 <= a + s -> beyond_safe (add (of_Z a) (of_Z s))).
Proof.
  intros Ha Hs. split; intros H.
  - destruct (Z.eq_dec a 0) as [->|Hne].
    + rewrite Z.add_0_l. rewrite (of_Z_canonical s) by lia. reflexivity.
    + destruct (add_canonical a s ltac:(lia) ltac:(lia)) as [Hsmall _].
      rewrite !of_Z_canonical by lia. now apply Hsmall.
  - destruct (Z.le_gt_cases (2 ^ 53) s) as [Hbig|Hsmall].
    + apply add_beyond; [assumption | now apply of_Z_big].
    + destruct (add_canonical a s ltac:(lia) ltac:(lia)) as [_ Hl].
      rewrite !of_Z_canonical by lia. now apply Hl.
Qed.

Lemma progression_step a b s :
  a <= b -> 1 <= s ->
  progression a b s = a :: progression (a + s) b s.
Proof.
  intros Hab Hs. unfold progression at 1.
  replace (a <=? b) with true by (symmetry; apply Z.leb_le; lia).
  assert (Hq : 0 <= (b - a) / s) by (apply Z.div_pos; lia).
  replace (Z.to_nat ((b - a) / s + 1)) with (S (Z.to_nat ((b - a) / s))) by lia.
  cbn [seq map]. f_equal; [lia|].
  rewrite <- seq_shift, map_map.
  unfold progression. destruct (Z.leb_spec (a + s) b) as [Hle|Hgt].
  - replace (b - (a + s)) with ((b - a) + (-1) * s) by lia.
    rewrite Z.div_add by lia.
    replace (Z.to_nat ((b - a) / s + -1 + 1)) with (Z.to_nat ((b - a) / s)) by lia.
    apply map_ext. intros k. lia.
  - rewrite Z.div_small by lia. reflexivity.
Qed.

Lemma progression_above a b s : b < a -> progression a b s = [].
Proof.
  intros H. unfold progression.
  now replace (a <=? b) with false by (symmetry; apply Z.leb_gt; lia).
Qed.

Lemma range_loop_progression_below capacity b s :
  0 <= b < 2 ^ 53 -> 1 <= s ->
  forall n a, 0 <= a < 2 ^ 53 -> 2 ^ 53 - a <= Z.of_nat n ->
  forall result, (N.of_nat (List.length result) <= arrayRoom capacity)%N ->
  exists fuel,
    range_loop capacity fuel (of_Z a) (of_Z b) (of_Z s) result
    = if hasRoom capacity result (progression a b s)
      then Done (result ++ map of_Z (progression a b s))
      else RangeError.
Proof.
  intros Hb Hs. unfold hasRoom.
  induction n as [|n IH]; intros a Ha Hn result Hroom; [lia|].
  destruct (Z.leb_spec a b) as [Hle|Hgt].
  - rewrite progression_step by lia. cbn [map List.length].
    assert (Hcmp : leb (of_Z a) (of_Z b) = true)
      by (rewrite of_Z_leb by lia; apply Z.leb_le; lia).
    destruct (canPush capacity result) eqn:Ep.
    + pose proof (proj1 (canPush_lt _ _) Ep) as Hlt.
      destruct (add_of_Z_split a s Ha Hs) as [Hexact Hbeyond].
      destruct (Z.le_gt_cases (2 ^ 53) (a + s)) as [Hbig|Hsmall].
      * exists 2%nat. cbn [range_loop]. rewrite Hcmp. unfold push.
        rewrite Ep. cbn [bind].
        rewrite (beyond_gt _ b (Hbeyond Hbig) Hb).
        rewrite progression_above by lia. cbn [List.length map].
        replace (_ <=? _)%N with true by (symmetry; apply N.leb_le; lia).
        reflexivity.
      * destruct (IH (a + s) ltac:(lia) ltac:(lia) (result ++ [of_Z a]))
          as (fuel & Hrun).
        { rewrite length_app. cbn [List.length]. lia. }
        exists (S fuel). cbn [range_loop]. rewrite Hcmp. unfold push.
        rewrite Ep. cbn [bind]. rewrite (Hexact Hsmall), Hrun.
        rewrite length_app. cbn [List.length].
        replace (List.length result + 1 + List.length (progression (a + s) b s))%nat
          with (List.length result + S (List.length (progression (a + s) b s)))%nat
          by lia.
        now rewrite <- app_assoc.
    + pose proof (proj1 (canPush_ge _ _) Ep) as Hge.
      exists 1%nat. cbn [range_loop]. rewrite Hcmp. unfold push.
      rewrite Ep. cbn [bind].
      replace (_ <=? _)%N with false by (symmetry; apply N.leb_gt; lia).
      reflexivity.
  - exists 1%nat. cbn [range_loop]. rewrite of_Z_leb by lia.
    replace (a <=? b) with false by (symmetry; apply Z.leb_gt; lia).
    rewrite progression_above by lia. cbn [List.length map].
    rewrite Nat.add_0_r, app_nil_r.
    replace (_ <=? _)%N with true by (symmetry; apply N.leb_le; lia).
    reflexivity.
Qed.

(** The range loop on integers: the arithmetic progression from the
    start bound, by the step, up to an end bound below 2^53, when the
    array has room for it, and a RangeError when it has not. *)
Lemma range_loop_progression capacity a b s result :
  0 <= a -> 0 <= b < 2 ^ 53 -> 1 <= s ->
  (N.of_nat (List.length result) <= arrayRoom capacity)%N ->
  exists fuel,
    range_loop capacity fuel (of_Z a) (of_Z b) (of_Z s) result
    = if hasRoom capacity result (progression a b s)
      then Done (result ++ map of_Z (progression a b s))
      else RangeError.
Proof.
  intros Ha Hb Hs Hroom.
  destruct (Z.le_gt_cases (2 ^ 53) a) as [Hbig|Hsmall].
  - exists 1%nat. cbn [range_loop].
    rewrite (beyond_gt _ b (of_Z_big a Hbig) Hb).
    rewrite progression_above by lia. unfold hasRoom. cbn [List.length map].
    rewrite Nat.add_0_r, app_nil_r.
    replace (_ <=? _)%N with true by (symmetry; apply N.leb_le; lia).
    reflexivity.
  - apply (range_loop_progression_below capacity b s Hb Hs (Z.to_nat (2 ^ 53)));
      (lia || assumption).
Qed.

End Order.

Section Numerals.
Import JS CreateTask Props Ranges.
Open Scope Z_scope.

Lemma decimal_digit_cases c :
  isDecimalDigit c = true ->
  In c [48; 49; 50; 51; 52; 53; 54; 55; 56; 57]%N.
Proof.
  unfold isDecimalDigit. intros H. apply andb_true_iff in H as [H1 H2].
  apply N.leb_le in H1, H2.
  assert (E : (c = 48 \/ c = 49 \/ c = 50 \/ c = 51 \/ c = 52 \/ c = 53
               \/ c = 54 \/ c = 55 \/ c = 56 \/ c = 57)%N) by lia.
  simpl. intuition.
Qed.

Ltac by_digit c H :=
  let Hin := fresh in
  pose proof (decimal_digit_cases c H) as Hin; simpl in Hin;
  repeat (destruct Hin as [<-|Hin]; [reflexivity|]); contradiction.

Lemma digit_not_space c : isDecimalDigit c = true -> isWhiteSpace c = false.
Proof. intros H. by_digit c H. Qed.

Lemma digit_is_decimal c : isDecimalDigit c = true -> isRadixDigit 10 c = true.
Proof. intros H. by_digit c H. Qed.

Lemma digit_not_sign c :
  isDecimalDigit c = true -> ((c =? 45) || (c =? 43))%N = false.
Proof. intros H. by_digit c H. Qed.

Lemma digit_not_x c :
  isDecimalDigit c = true -> ((c =? 120) || (c =? 88))%N = false.
Proof. intros H. by_digit c H. Qed.

Lemma digit_not_mark c :
  isDecimalDigit c = true ->
  ((c =? comma) || (c =? hyphen) || (c =? colon) || (c =? 46) || (c =? 73))%N = false.
Proof. intros H. by_digit c H. Qed.

Lemma numeral_cons ds :
  isNumeral ds = true ->
  exists c r, ds = c :: r /\ isDecimalDigit c = true
              /\ forallb isDecimalDigit r = true.
Proof.
  unfold isNumeral. destruct ds as [|c r]; [discriminate|]. simpl.
  intros H. apply andb_true_iff in H as [Hc Hr]. eauto.
Qed.

Lemma span_all p ds : forallb p ds = true -> span p ds = (ds, []).
Proof.
  induction ds as [|c r IH]; [reflexivity|]. simpl.
  intros H. apply andb_true_iff in H as [Hc Hr].
  now rewrite Hc, (IH Hr).
Qed.

Lemma forallb_digit_radix r :
  forallb isDecimalDigit r = true -> forallb (isRadixDigit 10) r = true.
Proof.
  induction r as [|c r IH]; [reflexivity|]. simpl.
  intros H. apply andb_true_iff in H as [Hc Hr].
  now rewrite (digit_is_decimal c Hc), (IH Hr).
Qed.

Lemma numeral_without ds c :
  forallb isDecimalDigit ds = true ->
  isDecimalDigit c = false ->
  includes ds c = false.
Proof.
  intros H Hc. unfold includes. induction ds as [|d r IH]; [reflexivity|].
  simpl in *. apply andb_true_iff in H as [Hd Hr].
  rewrite (IH Hr), orb_false_r. apply N.eqb_neq. intros <-. congruence.
Qed.

(** [parseInt] reads a decimal numeral as the integer it writes. *)
Lemma parseInt_Z_numeral ds :
  isNumeral ds = true -> parseInt_Z ds = Some (false, digitsValue 10 ds).
Proof.
  intros H. destruct (numeral_cons ds H) as (c & r & -> & Hc & Hr).
  unfold parseInt_Z. cbn [trimStart]. rewrite (digit_not_space c Hc).
  unfold stripSign.
  pose proof (digit_not_sign c Hc) as Hs. apply orb_false_elim in Hs as [-> ->].
  assert (Hp : stripPrefix (c :: r) = (10, c :: r)).
  { unfold stripPrefix. destruct r as [|x r']; [reflexivity|].
    simpl in Hr. apply andb_true_iff in Hr as [Hx _].
    now rewrite (digit_not_x x Hx), andb_false_r. }
  rewrite Hp, span_all; [reflexivity|].
  simpl. now rewrite (digit_is_decimal c Hc), forallb_digit_radix.
Qed.

Lemma parseInt_numeral ds :
  isNumeral ds = true -> parseInt ds = of_Z (digitsValue 10 ds).
Proof.
  intros H. unfold parseInt. rewrite (parseInt_Z_numeral ds H).
  destruct (digitsValue 10 ds =? 0) eqn:E; [|reflexivity].
  apply Z.eqb_eq in E. now rewrite E.
Qed.

(** [parseFloat] does the same. *)
Lemma parseFloat_numeral ds :
  isNumeral ds = true -> parseFloat ds = of_Z (digitsValue 10 ds).
Proof.
  intros H. destruct (numeral_cons ds H) as (c & r & -> & Hc & Hr).
  unfold parseFloat. cbn [trimStart]. rewrite (digit_not_space c Hc).
  unfold stripSign.
  pose proof (digit_not_sign c Hc) as Hs. apply orb_false_elim in Hs as [-> ->].
  unfold unsignedDecimal.
  assert (Hi : startsWith (str "Infinity") (c :: r) = false).
  { unfold startsWith. rewrite andb_false_iff. right. by_digit c Hc. }
  rewrite Hi, span_all by (simpl; now rewrite Hc, Hr).
  change (exponentPart []) with 0. unfold of_decimal.
  destruct (digitsValue 10 (c :: r) =? 0) eqn:E.
  - apply Z.eqb_eq in E. now rewrite E.
  - change (0 <=? 0) with true. cbv iota. cbn [cond_Zopp].
    change (10 ^ 0) with 1. now rewrite Z.mul_1_r.
Qed.

Lemma of_Z_not_NaN z : 0 <= z -> isNaN (of_Z z) = false.
Proof.
  intros H. pose proof (of_Z_sign z H) as Hs. now destruct (of_Z z).
Qed.

Lemma of_Z_positive z : 1 <= z -> gtb (of_Z z) (of_Z 0) = true.
Proof.
  intros H. destruct (Z.le_gt_cases (2 ^ 53) z) as [Hbig|Hsmall].
  - pose proof (of_Z_big z Hbig) as Hb.
    destruct (of_Z z) as [s|[]| |[] m e]; simpl in Hb; try contradiction; reflexivity.
  - rewrite of_Z_canonical by lia. reflexivity.
Qed.

End Numerals.

Section RangeSegments.
Import JS CreateTask Props Ranges.
Open Scope Z_scope.

Lemma trimStart_spaceless s : spaceless s = true -> trimStart s = s.
Proof.
  unfold spaceless. destruct s as [|c r]; [reflexivity|]. simpl.
  intros H. apply andb_true_iff in H as [Hc _].
  now destruct (isWhiteSpace c).
Qed.

Lemma spaceless_rev s : spaceless s = true -> spaceless (rev s) = true.
Proof.
  unfold spaceless. rewrite !forallb_forall. intros H c Hc.
  apply H. now apply in_rev.
Qed.

Lemma trim_spaceless s : spaceless s = true -> trim s = s.
Proof.
  intros H. unfold trim, trimEnd.
  rewrite (trimStart_spaceless s H).
  rewrite (trimStart_spaceless _ (spaceless_rev s H)).
  apply rev_involutive.
Qed.

Lemma numeral_digits ds : isNumeral ds = true -> forallb isDecimalDigit ds = true.
Proof. unfold isNumeral. intros H. now apply andb_true_iff in H as [_ H]. Qed.

Lemma digits_spaceless ds :
  forallb isDecimalDigit ds = true -> spaceless ds = true.
Proof.
  unfold spaceless. induction ds as [|c r IH]; [reflexivity|]. simpl.
  intros H. apply andb_true_iff in H as [Hc Hr].
  now rewrite (digit_not_space c Hc), (IH Hr).
Qed.

Lemma includes_app s t c : includes (s ++ t) c = includes s c || includes t c.
Proof. unfold includes. apply existsb_app. Qed.

Lemma validStep_digits stepText :
  validStep stepText = true ->
  forallb isDecimalDigit (match stepText with Some t => t | None => [] end) = true.
Proof.
  destruct stepText as [[|c t]|]; try reflexivity. cbn [validStep].
  intros H. apply andb_true_iff in H as [H _]. now apply numeral_digits.
Qed.

Lemma parseStep_valid stepText :
  validStep stepText = true ->
  parseStep stepText = of_Z (stepValue stepText) /\ 1 <= stepValue stepText.
Proof.
  destruct stepText as [[|c t]|]; cbn [validStep stepValue parseStep];
    try (intros _; split; [reflexivity | lia]).
  intros H. apply andb_true_iff in H as [Hn Hs]. apply Z.leb_le in Hs.
  split; [now apply parseInt_numeral | exact Hs].
Qed.

(** How a range text is cut: the bounds before the colon, the step
    after it. *)
Lemma parseRange_rangeText A B stepText :
  isNumeral A = true -> isNumeral B = true -> validStep stepText = true ->
  parseRange (rangeText A B stepText)
  = (of_Z (digitsValue 10 A), of_Z (digitsValue 10 B), parseStep stepText).
Proof.
  intros HA HB HS.
  pose proof (numeral_digits A HA) as HdA. pose proof (numeral_digits B HB) as HdB.
  pose proof (validStep_digits stepText HS) as HdS.
  assert (Hcolon : includes (A ++ hyphen :: B) colon = false).
  { rewrite includes_app. cbn [includes existsb].
    fold (includes B colon).
    now rewrite !numeral_without by (assumption || reflexivity). }
  assert (Hpieces : split colon (rangeText A B stepText)
                    = (A ++ hyphen :: B)
                      :: match stepText with Some t => [t] | None => [] end).
  { unfold rangeText. destruct stepText as [t|].
    - change (A ++ hyphen :: B ++ colon :: t) with (A ++ (hyphen :: B) ++ colon :: t).
      rewrite app_assoc, split_app, (split_without _ _ Hcolon).
      rewrite split_without; [reflexivity|].
      apply numeral_without; [exact HdS | reflexivity].
    - rewrite app_nil_r. now apply split_without. }
  assert (Hbounds : split hyphen (A ++ hyphen :: B) = [A; B]).
  { rewrite split_app, !split_without; [reflexivity| |];
      apply numeral_without; (assumption || reflexivity). }
  unfold parseRange. cbv zeta. rewrite Hpieces. cbn [hd]. rewrite Hbounds.
  unfold parseInt_arg. cbn [nth_error]. rewrite !parseInt_numeral by assumption.
  now destruct stepText.
Qed.

Lemma rangeText_spaceless A B stepText :
  isNumeral A = true -> isNumeral B = true -> validStep stepText = true ->
  spaceless (rangeText A B stepText) = true
  /\ includes (rangeText A B stepText) comma = false
  /\ includes (rangeText A B stepText) hyphen = true.
Proof.
  intros HA HB HS.
  pose proof (numeral_digits A HA) as HdA. pose proof (numeral_digits B HB) as HdB.
  pose proof (validStep_digits stepText HS) as HdS.
  unfold rangeText. split; [|split].
  - unfold spaceless. rewrite forallb_app. cbn [forallb]. rewrite forallb_app.
    fold (spaceless A). fold (spaceless B).
    rewrite !digits_spaceless by assumption.
    destruct stepText as [t|]; [|reflexivity].
    cbn [forallb]. fold (spaceless t). now rewrite digits_spaceless.
  - unfold includes. destruct stepText as [t|];
      rewrite ?existsb_app; cbn [existsb]; rewrite ?existsb_app; cbn [existsb];
      rewrite !(fun ds H => numeral_without ds comma H eq_refl : existsb (N.eqb comma) ds = false)
        by assumption; reflexivity.
  - rewrite includes_app. cbn [includes existsb].
    unfold hyphen at 2. rewrite N.eqb_refl. now rewrite orb_true_r.
Qed.

Lemma length_progression a b s :
  List.length (progression a b s)
  = Z.to_nat (if a <=? b then (b - a) / s + 1 else 0).
Proof.
  unfold progression. destruct (a <=? b); [|reflexivity].
  now rewrite length_map, length_seq.
Qed.

(** X1. A range segment [A-B] or [A-B:S] written with decimal numerals, the
    end bound below 2^53 and the step at least 1, stands for the integers
    [A, A+S, A+2S, ...] not above [B], in this order: [(B-A)/S + 1] values
    when [A <= B], none when [A > B].  It parses to these values on every
    engine whose arrays hold as many, and throws a RangeError on an
    engine whose arrays do not. *)
Theorem range_segment_values A B stepText :
  isNumeral A = true -> isNumeral B = true -> validStep stepText = true ->
  digitsValue 10 B < 2 ^ 53 ->
  let a := digitsValue 10 A in
  let b := digitsValue 10 B in
  let s := stepValue stepText in
  let count := if a <=? b then (b - a) / s + 1 else 0 in
  ((Z.to_N count <= maxArrayLength)%N ->
   returns (Z.to_N count)
     (fun capacity fuel => parseValues capacity fuel (rangeText A B stepText))
     (map of_Z (progression a b s)))
  /\ (forall capacity,
        (arrayRoom capacity < Z.to_N count)%N ->
        throwsRangeError
          (fun fuel => parseValues capacity fuel (rangeText A B stepText)))
  /\ List.length (progression a b s) = Z.to_nat count
  /\ forall k, (k < List.length (progression a b s))%nat ->
       nth_error (progression a b s) k = Some (a + Z.of_nat k * s).
Proof.
  intros HA HB HS Hb a b s count.
  destruct (rangeText_spaceless A B stepText HA HB HS) as (Hsp & Hcomma & Hhyphen).
  destruct (parseStep_valid stepText HS) as [Hstep Hs1]. fold s in Hstep, Hs1.
  assert (Hrun : forall capacity, exists fuel,
             parseValues capacity fuel (rangeText A B stepText)
             = if (Z.to_N count <=? arrayRoom capacity)%N
               then Done (map of_Z (progression a b s))
               else RangeError).
  { intros capacity.
    destruct (range_loop_progression capacity a b s []) as (fuel & Hrun).
    - now apply digitsValue_nonneg.
    - split; [now apply digitsValue_nonneg | exact Hb].
    - exact Hs1.
    - cbn [List.length]. lia.
    - exists fuel. unfold parseValues.
      rewrite (split_without _ _ Hcomma). cbn [map parseParts].
      rewrite (trim_spaceless _ Hsp). unfold parsePart.
      rewrite Hhyphen, (parseRange_rangeText A B stepText HA HB HS), Hstep.
      fold a b. unfold validRange.
      rewrite !of_Z_not_NaN by (try apply digitsValue_nonneg; lia).
      rewrite of_Z_positive by exact Hs1. cbn [negb andb].
      rewrite Hrun. unfold hasRoom. cbn [List.length Nat.add app].
      rewrite length_progression. fold count.
      replace (N.of_nat (Z.to_nat count)) with (Z.to_N count) by lia.
      now destruct (Z.to_N count <=? arrayRoom capacity)%N. }
  split; [|split; [|split]].
  - intros Hmax capacity Hle. destruct (Hrun capacity) as (fuel & Hf).
    exists fuel. rewrite Hf.
    replace (Z.to_N count <=? arrayRoom capacity)%N with true; [reflexivity|].
    symmetry. apply N.leb_le. unfold arrayRoom. lia.
  - intros capacity Hlt. destruct (Hrun capacity) as (fuel & Hf).
    exists fuel. rewrite Hf.
    replace (Z.to_N count <=? arrayRoom capacity)%N with false; [reflexivity|].
    symmetry. apply N.leb_gt. exact Hlt.
  - apply length_progression.
  - intros k Hk. rewrite length_progression in Hk. unfold progression in *.
    destruct (a <=? b); [|simpl in Hk; lia].
    rewrite nth_error_map, nth_error_seq.
    replace (k <? Z.to_nat ((b - a) / s + 1))%nat with true
      by (symmetry; apply Nat.ltb_lt; lia).
    reflexivity.
Qed.

Lemma range_segment_values_witness :
  returns 4 (fun capacity fuel => parseValues capacity fuel (str "3-20:5"))
          (map of_Z [3; 8; 13; 18])
  /\ throwsRangeError
       (fun fuel => parseValues 3 fuel (str "3-20:5"))
  /\ throwsRangeError
       (fun fuel => parseValues 4294967295 fuel (str "0-4294967295")).
Proof.
  split; [|split].
  - apply (proj1 (range_segment_values (str "3") (str "20") (Some (str "5"))
                    eq_refl eq_refl eq_refl eq_refl)).
    vm_compute. discriminate.
  - apply (proj1 (proj2 (range_segment_values (str "3") (str "20")
                           (Some (str "5"))
                           eq_refl eq_refl eq_refl eq_refl)) 3%N).
    reflexivity.
  - apply (proj1 (proj2 (range_segment_values (str "0") (str "4294967295") None
                           eq_refl eq_refl eq_refl eq_refl)) 4294967295%N).
    reflexivity.
Defined.

End RangeSegments.

Section Composition.
Import JS CreateTask Props Ranges.
Open Scope Z_scope.

(** *** The array only grows, within its room *)

Lemma range_loop_length capacity fuel : forall i end_ step result vs,
  range_loop capacity fuel i end_ step result = Done vs ->
  (List.length result <= List.length vs)%nat.
Proof.
  induction fuel as [|fuel IH]; intros i end_ step result vs H; [discriminate|].
  cbn [range_loop] in H. destruct (leb i end_).
  - unfold push in H. destruct (canPush capacity result); [|discriminate].
    cbn [bind] in H. apply IH in H. rewrite length_app in H. lia.
  - injection H as <-. lia.
Qed.

Lemma parsePart_length capacity fuel part result vs :
  parsePart capacity fuel part result = Done vs ->
  (List.length result <= List.length vs)%nat.
Proof.
  unfold parsePart. destruct (includes part hyphen).
  - destruct (parseRange part) as [[start end_] step].
    destruct (validRange start end_ step); [apply range_loop_length|].
    intros H. injection H as <-. lia.
  - unfold push. destruct (negb (isNaN (parseFloat part)));
      [destruct (canPush capacity result); [|discriminate]|];
      intros H; injection H as <-; rewrite ?length_app; lia.
Qed.

Lemma parseParts_length capacity fuel parts : forall result vs,
  parseParts capacity fuel parts result = Done vs ->
  (List.length result <= List.length vs)%nat.
Proof.
  induction parts as [|part parts IH]; intros result vs H.
  - injection H as <-. lia.
  - cbn [parseParts] in H.
    destruct (parsePart capacity fuel part result) as [r| | |] eqn:E;
      try discriminate.
    cbn [bind] in H. apply parsePart_length in E. apply IH in H. lia.
Qed.

Lemma range_loop_bounded capacity fuel : forall i end_ step result vs,
  (N.of_nat (List.length result) <= arrayRoom capacity)%N ->
  range_loop capacity fuel i end_ step result = Done vs ->
  (N.of_nat (List.length vs) <= arrayRoom capacity)%N.
Proof.
  induction fuel as [|fuel IH]; intros i end_ step result vs Hr H;
    [discriminate|].
  cbn [range_loop] in H. destruct (leb i end_).
  - unfold push in H. destruct (canPush capacity result) eqn:Ep; [|discriminate].
    cbn [bind] in H. apply canPush_lt in Ep. apply IH in H; [exact H|].
    rewrite length_app. cbn [List.length]. lia.
  - now injection H as <-.
Qed.

Lemma parsePart_bounded capacity fuel part result vs :
  (N.of_nat (List.length result) <= arrayRoom capacity)%N ->
  parsePart capacity fuel part result = Done vs ->
  (N.of_nat (List.length vs) <= arrayRoom capacity)%N.
Proof.
  intros Hr. unfold parsePart. destruct (includes part hyphen).
  - destruct (parseRange part) as [[start end_] step].
    destruct (validRange start end_ step); [now apply range_loop_bounded|].
    intros H. now injection H as <-.
  - unfold push. destruct (negb (isNaN (parseFloat part)));
      [|intros H; now injection H as <-].
    destruct (canPush capacity result) eqn:Ep; [|discriminate].
    apply canPush_lt in Ep. intros H. injection H as <-.
    rewrite length_app. cbn [List.length]. lia.
Qed.

Lemma parseParts_bounded capacity fuel parts : forall result vs,
  (N.of_nat (List.length result) <= arrayRoom capacity)%N ->
  parseParts capacity fuel parts result = Done vs ->
  (N.of_nat (List.length vs) <= arrayRoom capacity)%N.
Proof.
  induction parts as [|part parts IH]; intros result vs Hr H.
  - now injection H as <-.
  - cbn [parseParts] in H.
    destruct (parsePart capacity fuel part result) as [r| | |] eqn:E;
      try discriminate.
    cbn [bind] in H. apply (IH r); [|exact H].
    now apply (parsePart_bounded _ _ _ _ _ Hr E).
Qed.

(** What [parseValues] returns fits in an array. *)
Lemma parseValues_bounded capacity fuel input vs :
  parseValues capacity fuel input = Done vs ->
  (N.of_nat (List.length vs) <= arrayRoom capacity)%N.
Proof.
  unfold parseValues. apply parseParts_bounded. cbn [List.length]. lia.
Qed.

(** *** Values already in the array *)

(** A run that returns does so as well from a shorter array. *)
Lemma range_loop_shorter capacity fuel : forall i end_ step r1 r2 vs,
  range_loop capacity fuel i end_ step (r1 ++ r2) = Done vs ->
  exists vs', range_loop capacity fuel i end_ step r2 = Done vs'
              /\ vs = r1 ++ vs'.
Proof.
  induction fuel as [|fuel IH]; intros i end_ step r1 r2 vs H; [discriminate|].
  cbn [range_loop] in *. destruct (leb i end_).
  - unfold push in *.
    destruct (canPush capacity (r1 ++ r2)) eqn:Ep; [|discriminate].
    apply canPush_lt in Ep. rewrite length_app in Ep.
    replace (canPush capacity r2) with true
      by (symmetry; apply canPush_lt; lia).
    cbn [bind] in *. rewrite <- app_assoc in H. now apply IH.
  - injection H as <-. now exists r2.
Qed.

Lemma parsePart_shorter capacity fuel part r1 r2 vs :
  parsePart capacity fuel part (r1 ++ r2) = Done vs ->
  exists vs', parsePart capacity fuel part r2 = Done vs' /\ vs = r1 ++ vs'.
Proof.
  unfold parsePart. destruct (includes part hyphen).
  - destruct (parseRange part) as [[start end_] step].
    destruct (validRange start end_ step); [apply range_loop_shorter|].
    intros H. injection H as <-. now exists r2.
  - destruct (negb (isNaN (parseFloat part)));
      [|intros H; injection H as <-; now exists r2].
    unfold push.
    destruct (canPush capacity (r1 ++ r2)) eqn:Ep; [|discriminate].
    apply canPush_lt in Ep. rewrite length_app in Ep.
    replace (canPush capacity r2) with true
      by (symmetry; apply canPush_lt; lia).
    intros H. injection H as <-. eexists. split; [reflexivity|].
    now rewrite app_assoc.
Qed.

Lemma parseParts_shorter capacity fuel parts : forall r1 r2 vs,
  parseParts capacity fuel parts (r1 ++ r2) = Done vs ->
  exists vs', parseParts capacity fuel parts r2 = Done vs' /\ vs = r1 ++ vs'.
Proof.
  induction parts as [|part parts IH]; intros r1 r2 vs H.
  - injection H as <-. now exists r2.
  - cbn [parseParts] in *.
    destruct (parsePart capacity fuel part (r1 ++ r2)) as [r| | |] eqn:E;
      try discriminate.
    apply parsePart_shorter in E as (r' & -> & ->). cbn [bind] in *.
    now apply IH.
Qed.

(** A run that returns from [r2] does from [r1 ++ r2] what the room
    allows. *)
Lemma range_loop_longer capacity fuel : forall i end_ step r1 r2 vs,
  range_loop capacity fuel i end_ step r2 = Done vs ->
  (N.of_nat (List.length (r1 ++ r2)) <= arrayRoom capacity)%N ->
  range_loop capacity fuel i end_ step (r1 ++ r2)
  = if hasRoom capacity r1 vs then Done (r1 ++ vs) else RangeError.
Proof.
  unfold hasRoom.
  induction fuel as [|fuel IH]; intros i end_ step r1 r2 vs H Hr;
    [discriminate|].
  cbn [range_loop] in *. destruct (leb i end_).
  - unfold push in *. destruct (canPush capacity r2); [|discriminate].
    cbn [bind] in *. pose proof (range_loop_length _ _ _ _ _ _ _ H) as Hlen.
    rewrite length_app in Hlen, Hr. cbn [List.length] in Hlen.
    destruct (canPush capacity (r1 ++ r2)) eqn:Ep; cbn [bind].
    + apply canPush_lt in Ep. rewrite length_app in Ep.
      rewrite <- app_assoc. apply IH; [exact H|].
      rewrite !length_app. cbn [List.length]. lia.
    + apply canPush_ge in Ep. rewrite length_app in Ep.
      replace (_ <=? _)%N with false by (symmetry; apply N.leb_gt; lia).
      reflexivity.
  - injection H as <-. rewrite length_app in Hr.
    replace (_ <=? _)%N with true by (symmetry; apply N.leb_le; lia).
    reflexivity.
Qed.

Lemma parsePart_longer capacity fuel part r1 r2 vs :
  parsePart capacity fuel part r2 = Done vs ->
  (N.of_nat (List.length (r1 ++ r2)) <= arrayRoom capacity)%N ->
  parsePart capacity fuel part (r1 ++ r2)
  = if hasRoom capacity r1 vs then Done (r1 ++ vs) else RangeError.
Proof.
  intros H Hr.
  assert (Hkeep : vs = r2 ->
            Done (r1 ++ r2)
            = if hasRoom capacity r1 vs then Done (r1 ++ vs)
              else @RangeError (list number)).
  { intros ->. unfold hasRoom. rewrite length_app in Hr.
    replace (_ <=? _)%N with true by (symmetry; apply N.leb_le; lia).
    reflexivity. }
  unfold parsePart in *. destruct (includes part hyphen).
  - destruct (parseRange part) as [[start end_] step].
    destruct (validRange start end_ step); [now apply range_loop_longer|].
    injection H as <-. now apply Hkeep.
  - destruct (negb (isNaN (parseFloat part)));
      [|injection H as <-; now apply Hkeep].
    unfold push, hasRoom in *.
    destruct (canPush capacity r2); [|discriminate]. injection H as <-.
    rewrite length_app in Hr. rewrite length_app. cbn [List.length].
    destruct (canPush capacity (r1 ++ r2)) eqn:Ep.
    + apply canPush_lt in Ep. rewrite length_app in Ep.
      replace (_ <=? _)%N with true by (symmetry; apply N.leb_le; lia).
      now rewrite app_assoc.
    + apply canPush_ge in Ep. rewrite length_app in Ep.
      replace (_ <=? _)%N with false by (symmetry; apply N.leb_gt; lia).
      reflexivity.
Qed.

Lemma parseParts_longer capacity fuel parts : forall r1 r2 vs,
  parseParts capacity fuel parts r2 = Done vs ->
  (N.of_nat (List.length (r1 ++ r2)) <= arrayRoom capacity)%N ->
  parseParts capacity fuel parts (r1 ++ r2)
  = if hasRoom capacity r1 vs then Done (r1 ++ vs) else RangeError.
Proof.
  induction parts as [|part parts IH]; intros r1 r2 vs H Hr.
  - injection H as <-. cbn [parseParts]. unfold hasRoom.
    rewrite length_app in Hr.
    replace (_ <=? _)%N with true by (symmetry; apply N.leb_le; lia).
    reflexivity.
  - cbn [parseParts] in *.
    destruct (parsePart capacity fuel part r2) as [r| | |] eqn:E;
      try discriminate.
    cbn [bind] in H. rewrite (parsePart_longer _ _ _ r1 _ _ E Hr).
    pose proof (parseParts_length _ _ _ _ _ H) as Hlen.
    unfold hasRoom. destruct (N.leb_spec
      (N.of_nat (List.length r1 + List.length r)) (arrayRoom capacity))
      as [Hfit|Hfull]; cbn [bind].
    + apply IH; [exact H|]. rewrite length_app. exact Hfit.
    + replace (_ <=? _)%N with false by (symmetry; apply N.leb_gt; lia).
      reflexivity.
Qed.

(** X3. Parsing two specifications joined by a comma parses the first and
    goes on with the second on the same array.  When the joined
    specification returns, both parts return and its values are those of
    the first followed by those of the second; when both parts return,
    the joined specification returns these values if the array has room
    for them all, and throws a RangeError if it has not. *)
Theorem parseValues_comma capacity fuel a b :
  parseValues capacity fuel (a ++ comma :: b)
  = bind (parseValues capacity fuel a)
         (parseParts capacity fuel (map trim (split comma b)))
  /\ (forall vs,
        parseValues capacity fuel (a ++ comma :: b) = Done vs ->
        exists va vb,
          parseValues capacity fuel a = Done va
          /\ parseValues capacity fuel b = Done vb
          /\ vs = va ++ vb)
  /\ (forall va vb,
        parseValues capacity fuel a = Done va ->
        parseValues capacity fuel b = Done vb ->
        parseValues capacity fuel (a ++ comma :: b)
        = if hasRoom capacity va vb then Done (va ++ vb) else RangeError).
Proof.
  assert (Hjoin : parseValues capacity fuel (a ++ comma :: b)
                  = bind (parseValues capacity fuel a)
                         (parseParts capacity fuel (map trim (split comma b)))).
  { unfold parseValues. now rewrite split_app, map_app, parseParts_app. }
  split; [exact Hjoin|]. split.
  - intros vs H. rewrite Hjoin in H.
    destruct (parseValues capacity fuel a) as [va| | |]; try discriminate.
    cbn [bind] in H. rewrite <- (app_nil_r va) in H.
    apply parseParts_shorter in H as (vb & Hb & ->).
    now exists va, vb.
  - intros va vb Ha Hb. rewrite Hjoin, Ha. cbn [bind].
    rewrite <- (app_nil_r va) at 1.
    apply parseParts_longer; [exact Hb|].
    rewrite app_nil_r. now apply (parseValues_bounded _ _ _ _ Ha).
Qed.

Lemma parseValues_comma_witness :
  parseValues 5 6 (str "1-3,7,9") = Done (map of_Z [1; 2; 3; 7; 9])
  /\ parseValues 4 6 (str "1-3,7,9") = RangeError.
Proof.
  split.
  - exact (proj2 (proj2 (parseValues_comma 5 6 (str "1-3") (str "7,9")))
             _ _ eq_refl eq_refl).
  - exact (proj2 (proj2 (parseValues_comma 4 6 (str "1-3") (str "7,9")))
             _ _ eq_refl eq_refl).
Defined.

(** *** Lists of numerals *)

Lemma parsePart_numeral capacity fuel ds result :
  isNumeral ds = true ->
  parsePart capacity fuel ds result
  = push capacity result (of_Z (digitsValue 10 ds)).
Proof.
  intros H. unfold parsePart.
  rewrite numeral_without by (now apply numeral_digits || reflexivity).
  rewrite (parseFloat_numeral ds H).
  now rewrite of_Z_not_NaN by (now apply digitsValue_nonneg).
Qed.

Lemma parseParts_numerals capacity fuel numerals : forall result,
  forallb isNumeral numerals = true ->
  (N.of_nat (List.length result) <= arrayRoom capacity)%N ->
  parseParts capacity fuel (map trim numerals) result
  = if hasRoom capacity result numerals
    then Done (result ++ map (fun ds => of_Z (digitsValue 10 ds)) numerals)
    else RangeError.
Proof.
  unfold hasRoom.
  induction numerals as [|ds rest IH]; intros result H Hr.
  - cbn [map parseParts List.length]. rewrite Nat.add_0_r, app_nil_r.
    replace (_ <=? _)%N with true by (symmetry; apply N.leb_le; lia).
    reflexivity.
  - cbn [forallb] in H. apply andb_true_iff in H as [Hd Hrest].
    cbn [map parseParts List.length].
    rewrite trim_spaceless by (apply digits_spaceless; now apply numeral_digits).
    rewrite (parsePart_numeral capacity fuel ds result Hd). unfold push.
    destruct (canPush capacity result) eqn:Ep; cbn [bind].
    + apply canPush_lt in Ep.
      rewrite (IH _ Hrest) by (rewrite length_app; cbn [List.length]; lia).
      rewrite length_app. cbn [List.length].
      replace (List.length result + 1 + List.length rest)%nat
        with (List.length result + S (List.length rest))%nat by lia.
      now rewrite <- app_assoc.
    + apply canPush_ge in Ep.
      replace (_ <=? _)%N with false by (symmetry; apply N.leb_gt; lia).
      reflexivity.
Qed.

(** X2. A comma-separated list of decimal numerals parses, with no
    iteration of the range loop, to the Numbers of those integers in the
    order written, repeats included, when the array has room for them,
    and throws a RangeError when it has not. *)
Theorem numeral_list_values capacity fuel numerals :
  numerals <> [] ->
  forallb isNumeral numerals = true ->
  parseValues capacity fuel (join numerals)
  = if hasRoom capacity (@nil number) numerals
    then Done (map (fun ds => of_Z (digitsValue 10 ds)) numerals)
    else RangeError.
Proof.
  intros Hne H. rewrite parseValues_join.
  - apply (parseParts_numerals capacity fuel numerals [] H).
    cbn [List.length]. lia.
  - exact Hne.
  - apply Forall_forall. intros ds Hin.
    rewrite forallb_forall in H.
    apply numeral_without; [apply numeral_digits; now apply H | reflexivity].
Qed.

Lemma numeral_list_values_witness :
  parseValues 100 0 (str "7,8,8,9007199254740993")
  = Done (map of_Z [7; 8; 8; 9007199254740993]).
Proof.
  exact (numeral_list_values 100 0
           [str "7"; str "8"; str "8"; str "9007199254740993"]
           ltac:(discriminate) eq_refl).
Defined.

(** *** White space around a segment *)

Lemma trimStart_blank l s : blank l = true -> trimStart (l ++ s) = trimStart s.
Proof.
  unfold blank. induction l as [|c l IH]; [reflexivity|]. simpl.
  intros H. apply andb_true_iff in H as [Hc Hl]. rewrite Hc. now apply IH.
Qed.

Lemma trimStart_blank_all l : blank l = true -> trimStart l = [].
Proof.
  intros H. rewrite <- (app_nil_r l). now rewrite trimStart_blank.
Qed.

Lemma trimStart_app s r :
  trimStart (s ++ r)
  = match trimStart s with [] => trimStart r | t => t ++ r end.
Proof.
  induction s as [|c s IH]; simpl.
  - reflexivity.
  - destruct (isWhiteSpace c); [exact IH | reflexivity].
Qed.

Lemma blank_rev r : blank r = true -> blank (rev r) = true.
Proof.
  unfold blank. rewrite !forallb_forall. intros H c Hc. apply H. now apply in_rev.
Qed.

Lemma trimEnd_blank s r : blank r = true -> trimEnd (s ++ r) = trimEnd s.
Proof.
  intros H. unfold trimEnd. rewrite rev_app_distr.
  now rewrite trimStart_blank by now apply blank_rev.
Qed.

(** [trim] forgets the white space on both sides. *)
Lemma trim_padding l s r :
  blank l = true -> blank r = true -> trim (l ++ s ++ r) = trim s.
Proof.
  intros Hl Hr. unfold trim. rewrite trimStart_blank by exact Hl.
  rewrite trimStart_app. destruct (trimStart s) as [|c t] eqn:E.
  - now rewrite trimStart_blank_all.
  - now rewrite trimEnd_blank.
Qed.

Lemma blank_without_comma l : blank l = true -> includes l comma = false.
Proof.
  unfold blank, includes. induction l as [|c l IH]; [reflexivity|].
  cbn [forallb existsb].
  intros H. apply andb_true_iff in H as [Hc Hl]. rewrite (IH Hl), orb_false_r.
  apply N.eqb_neq. intros <-. discriminate.
Qed.

(** X4. White space before and after a segment changes nothing. *)
Theorem padding_ignored capacity fuel l s r pre post :
  blank l = true -> blank r = true ->
  includes s comma = false ->
  Forall (fun t => includes t comma = false) pre ->
  Forall (fun t => includes t comma = false) post ->
  parseValues capacity fuel (join (pre ++ (l ++ s ++ r) :: post))
  = parseValues capacity fuel (join (pre ++ s :: post)).
Proof.
  intros Hl Hr Hs Hpre Hpost.
  rewrite !parseValues_join.
  - unfold parseSegments. rewrite !map_app. cbn [map].
    now rewrite trim_padding.
  - now destruct pre.
  - apply Forall_app. split; [assumption | now constructor].
  - now destruct pre.
  - apply Forall_app. split; [assumption|]. constructor; [|assumption].
    rewrite !includes_app, Hs.
    now rewrite !blank_without_comma by assumption.
Qed.

Lemma padding_ignored_witness :
  parseValues 100 5 (str "1-3,   7.5  ,9") = parseValues 100 5 (str "1-3,7.5,9").
Proof.
  apply (padding_ignored 100 5 (str "   ") (str "7.5") (str "  ")
           [str "1-3"] [str "9"]); try reflexivity; repeat constructor.
Defined.

End Composition.

(** ** Invalid range segments *)

Section InvalidSegments.
Import JS CreateTask Props Ranges.
Open Scope Z_scope.













End InvalidSegments.

(** ** The product, the count and the submit paths *)

Section ProductMembers.
Import JS CreateTask Props Form.
Context {T : Type}.

(** X5. The product holds exactly the ways of taking one element from every
    array, in the arrays' order; so it is empty as soon as one array
    is. *)
Theorem cartesianProduct_members (arrays : list (list T)) :
  (forall combo, In combo (cartesianProduct arrays) <-> Forall2 (@In T) combo arrays)
  /\ (forall combo, In combo (cartesianProduct arrays) ->
        List.length combo = List.length arrays)
  /\ (In [] arrays -> cartesianProduct arrays = []).
Proof.
  rewrite cartesianProduct_lex. split; [|split].
  - intros combo. apply in_lexProduct.
  - intros combo H. apply in_lexProduct in H.
    now apply Forall2_length_eq in H.
  - intros Hin. destruct (lexProduct arrays) as [|c l] eqn:E; [reflexivity|].
    assert (Hc : In c (lexProduct arrays)) by (rewrite E; now left).
    apply in_lexProduct in Hc. exfalso. clear E l.
    induction Hc as [|x xs c' rest Hx _ IH]; [contradiction|].
    destruct Hin as [->|Hin]; [contradiction | auto].
Qed.

End ProductMembers.

Lemma cartesianProduct_members_witness :
  CreateTask.cartesianProduct [[1; 2]; []; [3]]%nat = [].
Proof.
  apply (proj2 (proj2 (cartesianProduct_members [[1; 2]; []; [3]]%nat))).
  simpl. auto.
Defined.


Section Count.
Import JS CreateTask Props Form.





End Count.

Section SubmitPaths.
Import JS CreateTask Props Form.

Ltac no_event :=
  let Hin := fresh in
  intros Hin; simpl in Hin; decompose [or] Hin; (discriminate || contradiction).

Lemma getWorkflow_cases env :
  (exists t, getWorkflow env = ([Alert t], None) /\ workflowAlert (Alert t) = true)
  \/ (exists w, getWorkflow env = ([], Some w) /\ workflow_keys w <> []).
Proof.
  unfold getWorkflow.
  destruct (comfyApp env) as [app|]; [|left; eexists; split; reflexivity].
  destruct (graph app); cbn [negb]; [|left; eexists; split; reflexivity].
  destruct (graphToPrompt app) as [|[w|]];
    try (left; eexists; split; reflexivity).
  destruct (workflow_keys w) as [|k ks] eqn:E; cbn [List.length Nat.eqb].
  - left; eexists; split; reflexivity.
  - right. exists w. split; [reflexivity|]. rewrite E. discriminate.
Qed.

(** The four ways a run of [handleSubmit] can go. *)
Lemma handleSubmit_paths capacity fuel st env events :
  handleSubmit capacity fuel st env = Done events ->
  (trim (name st) = []
   /\ events = [PreventDefault; SetError (Some NameRequired)])
  \/ (trim (name st) <> [] /\ generateParams capacity fuel st = Done []
      /\ events = [PreventDefault; SetError (Some NoValidParams)])
  \/ (exists t combo rest,
        trim (name st) <> [] /\ generateParams capacity fuel st = Done (combo :: rest)
        /\ getWorkflow env = ([Alert t], None)
        /\ workflowAlert (Alert t) = true
        /\ events = [PreventDefault; SetSubmitting true; SetError None;
                     Alert t; SetError (Some NoWorkflow);
                     SetSubmitting false; SetSubmitting false])
  \/ (exists w combo rest,
        trim (name st) <> [] /\ generateParams capacity fuel st = Done (combo :: rest)
        /\ getWorkflow env = ([], Some w) /\ workflow_keys w <> []
        /\ let req := {| ct_name := trim (name st); ct_workflow := w;
                         ct_params := combo :: rest |} in
           events = [PreventDefault; SetSubmitting true; SetError None;
                     ConsoleLog (combo :: rest); CreateTaskCall req]
                    ++ (if success (server env req)
                        then [Alert (TaskCreated (List.length (combo :: rest)));
                              SetName []; OnSuccess]
                        else [SetError (Some match error (server env req) with
                                             | Some (c :: t) => ServerError (c :: t)
                                             | _ => CreateFailed
                                             end)])
                    ++ [SetSubmitting false]).
Proof.
  unfold handleSubmit.
  destruct (trim (name st)) as [|c t] eqn:En.
  - intros H. injection H as <-. now left.
  - destruct (generateParams capacity fuel st) as [[|combo rest]| | |]; cbn [bind];
      try discriminate.
    + intros H. injection H as <-. right; left. repeat split. discriminate.
    + cbn [List.length Nat.eqb].
      destruct (getWorkflow_cases env) as [(a & Ew & Ha)|(w & Ew & Hk)];
        rewrite Ew; intros H; injection H as <-; right; right.
      * left. exists a, combo, rest. repeat split; try discriminate; auto.
      * right. exists w, combo, rest.
        split; [discriminate|]. split; [reflexivity|].
        split; [reflexivity|]. split; [exact Hk|].
        destruct (workflow_keys w) as [|k ks]; [contradiction|].
        cbn [List.length Nat.eqb]. cbv zeta. cbn [app]. reflexivity.
Qed.

(** X8. A run of [handleSubmit] that raised the submitting flag lowers it
    last, and no run calls [createTask] twice. *)
Theorem submitting_flag_lowered capacity fuel st env events :
  handleSubmit capacity fuel st env = Done events ->
  (In (SetSubmitting true) events ->
   exists before, events = before ++ [SetSubmitting false])
  /\ List.length (createCalls events) <= 1.
Proof.
  intros H.
  destruct (handleSubmit_paths capacity fuel st env events H)
    as [(_ & ->)|[(_ & _ & ->)|[(t & c & r & _ & _ & _ & _ & ->)
                               |(w & c & r & _ & _ & _ & _ & ->)]]].
  - split; [intros [E|[E|[]]]; discriminate | simpl; lia].
  - split; [intros [E|[E|[]]]; discriminate | simpl; lia].
  - split.
    + intros _. eexists [_; _; _; _; _; _]. reflexivity.
    + destruct t; simpl; lia.
  - split.
    + intros _. rewrite app_assoc. eauto.
    + cbv zeta. destruct (success _); simpl; lia.
Qed.

Lemma submitting_flag_lowered_witness :
  exists events,
    handleSubmit 100 3 (seed_steps (str " t ") (str "3") (str "7,8,9")) ready_page
    = Done events
    /\ (exists before, events = before ++ [SetSubmitting false])
    /\ List.length (createCalls events) <= 1.
Proof.
  eexists. split; [reflexivity|].
  destruct (submitting_flag_lowered 100 3
              (seed_steps (str " t ") (str "3") (str "7,8,9")) ready_page _ eq_refl)
    as [Hlast Hcalls].
  split; [apply Hlast; simpl; auto | exact Hcalls].
Defined.

(** X9. The request [handleSubmit] sends carries the trimmed, non-blank name
    and a workflow with at least one node; the form is cleared and
    [onSuccess] called exactly when a request was sent and the server
    answered success; a refusal shows an error and keeps the name. *)
Theorem form_reset_on_success capacity fuel st env events :
  handleSubmit capacity fuel st env = Done events ->
  (forall req, In req (createCalls events) ->
     ct_name req = trim (name st) /\ ct_name req <> []
     /\ workflow_keys (ct_workflow req) <> [])
  /\ (In OnSuccess events <->
      exists req, createCalls events = [req] /\ success (server env req) = true)
  /\ (In (SetName []) events <-> In OnSuccess events)
  /\ (forall req, createCalls events = [req] ->
        success (server env req) = false ->
        (exists msg, In (SetError (Some msg)) events)
        /\ forall s, ~ In (SetName s) events).
Proof.
  intros H.
  destruct (handleSubmit_paths capacity fuel st env events H)
    as [(_ & ->)|[(_ & _ & ->)|[(t & c & r & _ & _ & _ & Ht & ->)
                               |(w & c & r & Hn & _ & _ & Hk & ->)]]].
  - split; [intros ? []|]. split; [|split].
    + split; [no_event | intros (req & E & _); discriminate].
    + split; no_event.
    + intros req E. discriminate.
  - split; [intros ? []|]. split; [|split].
    + split; [no_event | intros (req & E & _); discriminate].
    + split; no_event.
    + intros req E. discriminate.
  - assert (Hc : createCalls [PreventDefault; SetSubmitting true; SetError None;
                              Alert t; SetError (Some NoWorkflow);
                              SetSubmitting false; SetSubmitting false] = [])
      by reflexivity.
    rewrite Hc. split; [intros ? []|]. split; [|split].
    + split; [no_event | intros (req & E & _); discriminate].
    + split; no_event.
    + intros req E. discriminate.
  - cbv zeta. set (req := {| ct_name := trim (name st); ct_workflow := w;
                             ct_params := c :: r |}).
    destruct (success (server env req)) eqn:Es.
    + split; [intros ? [<-|[]]; auto|]. split; [|split].
      * split; [intros _; exists req; auto | intros _; simpl; tauto].
      * split; intros _; simpl; tauto.
      * intros req' E. injection E as <-. congruence.
    + split; [intros ? [<-|[]]; auto|]. split; [|split].
      * split; [no_event|].
        intros (req' & E & Hs). injection E as <-. congruence.
      * split; no_event.
      * intros req' _ _. split; [eexists; simpl; eauto 10|].
        intros s. no_event.
Qed.

Lemma form_reset_on_success_witness :
  exists events,
    handleSubmit 100 3 (seed_steps (str " t ") (str "3") (str "7,8,9")) ready_page
    = Done events
    /\ In OnSuccess events /\ In (SetName []) events.
Proof.
  eexists. split; [reflexivity|].
  destruct (form_reset_on_success 100 3
              (seed_steps (str " t ") (str "3") (str "7,8,9")) ready_page _ eq_refl)
    as (_ & Hs & Hn & _).
  assert (Hon : In OnSuccess
                  (match handleSubmit 100 3 (seed_steps (str " t ") (str "3") (str "7,8,9")) ready_page with
                   | Done ev => ev | _ => [] end)).
  { apply Hs. eexists. split; reflexivity. }
  split; [exact Hon | apply Hn; exact Hon].
Defined.

(** X10. A workflow that cannot be read is reported twice, by the alert of
    [getWorkflow] and by the error of the form, and never sent: the form
    shows the workflow error exactly when such an alert was raised. *)
Theorem workflow_failure_alerted capacity fuel st env events :
  handleSubmit capacity fuel st env = Done events ->
  (In (SetError (Some NoWorkflow)) events <-> existsb workflowAlert events = true)
  /\ (In (SetError (Some NoWorkflow)) events -> createCalls events = []).
Proof.
  intros H.
  destruct (handleSubmit_paths capacity fuel st env events H)
    as [(_ & ->)|[(_ & _ & ->)|[(t & c & r & _ & _ & _ & Ht & ->)
                               |(w & c & r & Hn & _ & _ & Hk & ->)]]].
  - split; [split; [no_event | discriminate] | no_event].
  - split; [split; [no_event | discriminate] | no_event].
  - split; [split|].
    + intros _. cbn [existsb]. rewrite Ht. reflexivity.
    + intros _. simpl. auto 10.
    + intros _. reflexivity.
  - cbv zeta. destruct (success _).
    + split; [split; [no_event | discriminate] | no_event].
    + destruct (error _) as [[|c' t']|];
        (split; [split; [no_event | discriminate] | no_event]).
Qed.

Lemma workflow_failure_alerted_witness :
  exists events,
    handleSubmit 100 3 (seed_steps (str "t") (str "3") (str "7,8,9"))
      {| comfyApp := None; server := server ready_page |} = Done events
    /\ In (SetError (Some NoWorkflow)) events
    /\ createCalls events = [].
Proof.
  eexists. split; [reflexivity|].
  destruct (workflow_failure_alerted 100 3
              (seed_steps (str "t") (str "3") (str "7,8,9"))
              {| comfyApp := None; server := server ready_page |} _ eq_refl)
    as [Hiff Hcalls].
  assert (Hin : In (SetError (Some NoWorkflow))
                  (match handleSubmit 100 3 (seed_steps (str "t") (str "3") (str "7,8,9"))
                           {| comfyApp := None; server := server ready_page |} with
                   | Done ev => ev | _ => [] end)).
  { apply Hiff. reflexivity. }
  split; [exact Hin | exact (Hcalls Hin)].
Defined.

(** X7. The button and the handler agree: with a name that is not blank,
    a count of zero (button disabled) makes [handleSubmit] refuse with the
    parameter error, and a positive count lets it raise the submitting
    flag and go on to read the workflow. *)
Theorem button_agrees_with_handler capacity fuel st env n :
  trim (name st) <> [] ->
  taskCount capacity fuel st = Done n ->
  exists events,
    handleSubmit capacity fuel st env = Done events
    /\ (submitDisabled false n = true ->
        events = [PreventDefault; SetError (Some NoValidParams)])
    /\ (submitDisabled false n = false ->
        exists rest,
          events = PreventDefault :: SetSubmitting true :: SetError None :: rest).
Proof.
  intros Hname Hcount. unfold taskCount in Hcount. unfold handleSubmit.
  destruct (trim (name st)) as [|c t]; [contradiction|].
  destruct (generateParams capacity fuel st) as [paramsList| | |]; try discriminate.
  cbn [bind] in *. injection Hcount as <-.
  destruct paramsList as [|combo rest]; cbn [List.length Nat.eqb].
  - eexists. split; [reflexivity|]. split; [reflexivity | discriminate].
  - destruct (getWorkflow env) as [alerts w].
    eexists. split; [reflexivity|]. split; [discriminate|].
    intros _. eexists. reflexivity.
Qed.

Lemma button_agrees_with_handler_witness :
  exists events,
    handleSubmit 100 0 no_valid_seed ready_page = Done events
    /\ events = [PreventDefault; SetError (Some NoValidParams)].
Proof.
  destruct (button_agrees_with_handler 100 0 no_valid_seed ready_page 0
              ltac:(discriminate) eq_refl) as (events & Hrun & Hzero & _).
  exists events. split; [exact Hrun | apply Hzero; reflexivity].
Defined.

End SubmitPaths.

(** ** The task list *)

Section TaskListFacts.
Import TaskList.

Lemma failed_keeps_tasks events : forall st,
  forallb failedLoad events = true ->
  tasks (fold_left apply events st) = tasks st.
Proof.
  induction events as [|e events IH]; intros st H; [reflexivity|].
  cbn [forallb] in H. apply andb_true_iff in H as [He Hrest].
  cbn [fold_left]. rewrite (IH _ Hrest).
  destruct e as [|result]; [reflexivity|].
  cbn [failedLoad] in He. unfold apply, loadTasks_end.
  destruct (success result), (data result); try discriminate; reflexivity.
Qed.

(** X11. A refresh that fails never takes the list off the screen: the tasks
    of the last successful load stay, and stay shown, through any later
    loads that do not deliver a list; their error is kept out of sight.
    A delivered list replaces the old one, an empty one included. *)
Theorem failed_refresh_keeps_list st result d events :
  success result = true -> data result = Some d ->
  forallb failedLoad events = true ->
  let st' := fold_left apply events (loadTasks_end st result) in
  tasks st' = d
  /\ (d <> [] -> render st' = ListScreen d)
  /\ (d = [] -> forall shown, render st' <> ListScreen shown).
Proof.
  intros Hs Hd Hev st'.
  assert (Ht : tasks st' = d).
  { unfold st'. rewrite failed_keeps_tasks by exact Hev.
    unfold loadTasks_end. now rewrite Hs, Hd. }
  split; [exact Ht|]. unfold render. rewrite Ht. split.
  - intros Hne. destruct d; [contradiction|].
    cbn [List.length Nat.eqb]. now rewrite !andb_false_r.
  - intros -> shown. cbn [List.length Nat.eqb]. rewrite !andb_true_r.
    destruct (loading st'); [discriminate|].
    destruct (truthy (shown_error st')); discriminate.
Qed.

Lemma failed_refresh_keeps_list_witness :
  render (fold_left apply
            [Begin; End_ {| success := false; data := None; error := None |}]
            (loadTasks_end mounted
               {| success := true; data := Some [sampleTask]; error := None |}))
  = ListScreen [sampleTask].
Proof.
  refine (proj1 (proj2 (failed_refresh_keeps_list mounted
            {| success := true; data := Some [sampleTask]; error := None |}
            [sampleTask]
            [Begin; End_ {| success := false; data := None; error := None |}]
            eq_refl eq_refl eq_refl)) _).
  discriminate.
Defined.

(** X12. The error screen needs an empty list and a load that failed: it
    shows the server's text, or the default text when the server gave
    none; a response marked successful but without data counts as
    failed. *)
Theorem error_screen_text st result :
  tasks st = [] ->
  failedLoad (End_ result) = true ->
  render (loadTasks_end st result)
  = ErrorScreen (orDefault (error result) loadFailedText)
  /\ orDefault (error result) loadFailedText <> [].
Proof.
  intros Ht Hf. cbn [failedLoad] in Hf.
  assert (Hne : orDefault (error result) loadFailedText <> []).
  { unfold orDefault. destruct (error result) as [[|c t]|]; discriminate. }
  split; [|exact Hne].
  unfold render, loadTasks_end.
  destruct (success result), (data result); try discriminate;
    cbn [tasks loading shown_error]; rewrite Ht;
    destruct (orDefault (error result) loadFailedText); (congruence || reflexivity).
Qed.

Lemma error_screen_text_witness :
  render (loadTasks_end mounted {| success := true; data := None; error := Some [] |})
  = ErrorScreen loadFailedText.
Proof.
  exact (proj1 (error_screen_text mounted
                  {| success := true; data := None; error := Some [] |}
                  eq_refl eq_refl)).
Defined.

End TaskListFacts.


(** ** The loader *)

Section BootstrapFacts.
Import Bootstrap.

Lemma roots_found p : existsb (hasId rootId) (body p) = negb (List.length (roots p) =? 0)%nat.
Proof.
  unfold roots. induction (body p) as [|e l IH]; [reflexivity|]. simpl.
  destruct (hasId rootId e); [reflexivity | exact IH].
Qed.

Lemma initApp_roots f p :
  roots (initApp f p)
  = match roots p with
    | [] => [{| elem_id := rootId; rendered := negb f |}]
    | rs => rs
    end.
Proof.
  unfold initApp. rewrite roots_found.
  destruct (roots p) as [|r rs] eqn:E; cbn [List.length Nat.eqb negb].
  - unfold roots in *. cbn [body]. rewrite filter_app, E. reflexivity.
  - exact E.
Qed.

(** X13. [initApp] adds the container once: on a page without it, the first
    call leaves exactly one container and no later call adds or changes
    one.  So a first mount that threw is never tried again: the
    container stays, empty. *)
Theorem initApp_once f fs p :
  roots p = [] ->
  roots (fold_left (fun q f' => initApp f' q) fs (initApp f p))
  = [{| elem_id := rootId; rendered := negb f |}].
Proof.
  intros Hp.
  assert (H1 : roots (initApp f p) = [{| elem_id := rootId; rendered := negb f |}])
    by (now rewrite initApp_roots, Hp).
  revert H1. generalize (initApp f p). 
  induction fs as [|f' fs IH]; intros q Hq; [exact Hq|].
  cbn [fold_left]. apply IH. now rewrite initApp_roots, Hq.
Qed.

Lemma initApp_once_witness :
  roots (fold_left (fun q f' => initApp f' q) [false; false]
           (initApp true {| body := []; head := []; listeners := 0 |}))
  = [{| elem_id := rootId; rendered := false |}].
Proof.
  exact (initApp_once true [false; false]
           {| body := []; head := []; listeners := 0 |} eq_refl).
Defined.

Lemma iter_initApp_roots f n : forall q r,
  roots q = [r] -> roots (Nat.iter n (initApp f) q) = [r].
Proof.
  induction n as [|n IH]; intros q r Hq; [exact Hq|].
  rewrite Nat.iter_succ, initApp_roots. now rewrite (IH q r Hq).
Qed.

Lemma iter_initApp_first f n q :
  roots q = [] ->
  roots (Nat.iter (S n) (initApp f) q)
  = [{| elem_id := rootId; rendered := negb f |}].
Proof.
  intros Hq. induction n as [|n IH].
  - cbn [Nat.iter nat_rect]. now rewrite initApp_roots, Hq.
  - rewrite Nat.iter_succ, initApp_roots. now rewrite IH.
Qed.

(** X14. The loader.  When the style sheet and [index.js] load, the page
    gets exactly one container as soon as the module exports [initApp]
    or was evaluated on a document that is no longer loading, although
    [initApp] may run twice (on evaluation of the module or on
    [DOMContentLoaded], and by the explicit call), whether or not
    [lib-react.js] loaded.  When the module does not export [initApp]
    and the document is still loading, the page has no container until
    [DOMContentLoaded], and exactly one after it.  When the style sheet
    or [index.js] fails to load, no container is added and the error
    banner is. *)
Theorem initMiniBatcher_one_root b p :
  roots p = [] ->
  (css_loads b && index_loads b = true ->
   exports_initApp b || negb (readyStateLoading b) = true ->
   exists r,
     roots (initMiniBatcher b p) = [r]
     /\ elem_id r = rootId
     /\ forall f, roots (domContentLoaded f (initMiniBatcher b p)) = [r])
  /\ (css_loads b && index_loads b = true ->
      exports_initApp b || negb (readyStateLoading b) = false ->
      roots (initMiniBatcher b p) = []
      /\ forall f,
           roots (domContentLoaded f (initMiniBatcher b p))
           = [{| elem_id := rootId; rendered := negb f |}])
  /\ (css_loads b && index_loads b = false ->
      roots (initMiniBatcher b p) = []
      /\ body (initMiniBatcher b p) = body p ++ [banner]).
Proof.
  intros Hp. unfold initMiniBatcher.
  set (p1 := {| body := body p; head := head p ++ [cssHref];
                listeners := listeners p |}).
  assert (Hp1 : roots p1 = []) by exact Hp.
  split; [|split].
  - intros H Hcall. apply andb_true_iff in H as [-> ->].
    assert (Hr : exists r,
      roots (if exports_initApp b
             then initApp (second_mount_throws b)
                    (evaluateIndex (readyStateLoading b) (first_mount_throws b) p1)
             else evaluateIndex (readyStateLoading b) (first_mount_throws b) p1)
      = [r]
      /\ elem_id r = rootId).
    { unfold evaluateIndex.
      destruct (exports_initApp b), (readyStateLoading b);
        try discriminate; rewrite ?initApp_roots.
      - change (roots _) with (roots p1). rewrite Hp1. eauto.
      - rewrite Hp1. eauto.
      - rewrite Hp1. eauto. }
    destruct Hr as (r & Hr & Hid). exists r.
    split; [exact Hr|]. split; [exact Hid|].
    intros f. unfold domContentLoaded. now apply iter_initApp_roots.
  - intros H Hcall. apply andb_true_iff in H as [-> ->].
    apply orb_false_iff in Hcall as [-> Hloading].
    apply negb_false_iff in Hloading. rewrite Hloading.
    unfold evaluateIndex. split; [exact Hp1|].
    intros f. unfold domContentLoaded. cbn [listeners body head].
    apply iter_initApp_first. exact Hp1.
  - intros H.
    assert (E : (if css_loads b
                 then if index_loads b
                      then if exports_initApp b
                           then initApp (second_mount_throws b)
                                  (evaluateIndex (readyStateLoading b)
                                     (first_mount_throws b) p1)
                           else evaluateIndex (readyStateLoading b)
                                  (first_mount_throws b) p1
                      else {| body := body p1 ++ [banner]; head := head p1;
                              listeners := listeners p1 |}
                 else {| body := body p1 ++ [banner]; head := head p1;
                         listeners := listeners p1 |})
                = {| body := body p1 ++ [banner]; head := head p1;
                     listeners := listeners p1 |}).
    { destruct (css_loads b), (index_loads b); try discriminate; reflexivity. }
    rewrite E. split; [|reflexivity].
    unfold roots. cbn [body]. rewrite filter_app. fold (roots p1).
    now rewrite Hp1.
Qed.

Lemma initMiniBatcher_one_root_witness :
  (exists r,
     roots (initMiniBatcher
              {| css_loads := true; lib_react_loads := false; index_loads := true;
                 exports_initApp := true;
                 readyStateLoading := true; first_mount_throws := false;
                 second_mount_throws := false |}
              {| body := []; head := []; listeners := 0 |}) = [r]
     /\ elem_id r = rootId)
  /\ roots (initMiniBatcher
              {| css_loads := true; lib_react_loads := false; index_loads := true;
                 exports_initApp := false;
                 readyStateLoading := true; first_mount_throws := false;
                 second_mount_throws := false |}
              {| body := []; head := []; listeners := 0 |}) = []
  /\ roots (initMiniBatcher
              {| css_loads := false; lib_react_loads := false; index_loads := true;
                 exports_initApp := true;
                 readyStateLoading := false; first_mount_throws := false;
                 second_mount_throws := false |}
              {| body := []; head := []; listeners := 0 |}) = [].
Proof.
  split; [|split].
  - destruct (proj1 (initMiniBatcher_one_root
               {| css_loads := true; lib_react_loads := false; index_loads := true;
                  exports_initApp := true;
                  readyStateLoading := true; first_mount_throws := false;
                  second_mount_throws := false |}
               {| body := []; head := []; listeners := 0 |} eq_refl)
               eq_refl eq_refl)
      as (r & Hr & Hid & _).
    exists r. split; [exact Hr | exact Hid].
  - exact (proj1 (proj1 (proj2 (initMiniBatcher_one_root
               {| css_loads := true; lib_react_loads := false; index_loads := true;
                  exports_initApp := false;
                  readyStateLoading := true; first_mount_throws := false;
                  second_mount_throws := false |}
               {| body := []; head := []; listeners := 0 |} eq_refl))
               eq_refl eq_refl)).
  - exact (proj1 (proj2 (proj2 (initMiniBatcher_one_root
               {| css_loads := false; lib_react_loads := false; index_loads := true;
                  exports_initApp := true;
                  readyStateLoading := false; first_mount_throws := false;
                  second_mount_throws := false |}
               {| body := []; head := []; listeners := 0 |} eq_refl))
               eq_refl)).
Defined.

End BootstrapFacts.
